(** * ClonePrevention.py: the GTI node, its epoch loop and clone detection

    A shallow embedding of [class GTI_Node] of [src/ClonePrevention.py]
    and the properties of its epoch state machine.

    Modelling choices.
    - Python floats are exact rationals [Q]: rounding, [nan] and [inf] are
      outside the model.  The two transcendental operations of the program,
      [math.sqrt] and [**], the parsers [float] and [int], [bytes.decode]
      and [time.ticks_diff] are library code: they are the fields of
      [Builtins], and every theorem holds for all of them.  [**] is a total
      function there: where the float operation raises or leaves the reals
      (an overflow, a negative base with a fractional exponent) the model
      goes on with some rational.
    - The constants of [config.py] (not part of the sources) are the fields
      of [Config]; [q_list] and [p] stand for [NODE_CONFIG[node_name]].
    - [self.state] is the record [State], the dicts are [gmap]s, the sets
      [gset]s.  A Python exception that nothing catches ends the program:
      such code returns in [result].
    - The radio and the console are part of the node: [inbox] is the queue
      read by [espnow.recv(0)], [console] the alert-related output in the
      order it is produced, [clock] the value of [time.ticks_ms()].  The
      clock moves between two turns of the loop only ([step_time]): the
      waits of [trigger_alert], 12 times 150 ms, are not modelled, so a
      tick reads one clock value throughout. *)

From Stdlib Require Import QArith Qabs Qminmax Qround Qpower.
From stdpp Require Import gmap strings list fin_maps pretty.

Local Open Scope Z_scope.

(** ** Exceptions *)

Inductive exn := ZeroDivisionError | ValueError | IndexError.

Inductive result (A : Type) :=
| Ok (a : A)
| Raise (e : exn).
Arguments Ok {A} a.
Arguments Raise {A} e.

#[global] Instance result_ret : MRet result := fun _ a => Ok a.

#[global] Instance result_bind : MBind result := fun _ _ k r =>
  match r with
  | Ok a => k a
  | Raise e => Raise e
  end.

(** ** Float comparisons *)

(** Python [a < b] on floats. *)
Definition Qltb (a b : Q) : bool :=
  match (a ?= b)%Q with
  | Lt => true
  | _ => false
  end.

(** Python [a == 0] on floats. *)
Definition Qzerob (a : Q) : bool := Qeq_bool a 0.

(** ** Data *)

Inductive Status := STABLE | DISTURBED.

#[global] Instance Status_eq_dec : EqDecision Status.
Proof. solve_decision. Defined.

(** One value of [self.state['neighbors']]. *)
Record NeighborRecord := {
  code : Q;
  nb_status : string;
  nb_epoch : Z;
  last_seen : Z
}.

(** The dict [self.state]. *)
Record State := {
  x : Q;
  status : Status;
  neighbors : gmap string NeighborRecord;
  epoch : Z;
  a_i : Q;
  convergence_count : Z;
  last_epoch : Z;
  message_counter : Z;
  previous_neighbors : gset string
}.

(** What [broadcast_state] puts in a frame, before the f-string formats it. *)
Record Wire := {
  w_network : string;
  w_name : string;
  w_status : Status;
  w_x : Q;
  w_p : Q;
  w_q : Q;
  w_epoch : Z;
  w_counter : Z
}.

Inductive Output :=
| OutCloneConflict (name : string) (e : Z)   (* line 134 *)
| OutMessageError                            (* line 148 *)
| OutAnomaly                                 (* line 190 *)
| OutCloneRegion (name : string)             (* line 201 *)
| OutBlink                                   (* lines 209-213, the alert *)
| OutSend (mac : string) (w : Wire).         (* line 157 *)

#[global] Instance Output_blink_dec (o : Output) : Decision (o = OutBlink).
Proof. destruct o; (by left) || (by right). Defined.

(** The attributes of a [GTI_Node], with the radio queue, the console and
    the clock.  [loop_last_epoch] is the local [last_epoch] of [run]. *)
Record Node := {
  node_name : string;
  region : string;
  led : bool;
  peers : gmap string string;
  current_q_index : nat;
  state : State;
  code_sequence : list Q;
  max_history : nat;
  suspicion_triggered : bool;
  clone_check_log : gmap (string * Z) Q;
  inbox : list string;
  console : list Output;
  clock : Z;
  loop_last_epoch : Z
}.

(** ** Field updates *)

Definition set_x (v : Q) (s : State) : State :=
  {| x := v; status := status s; neighbors := neighbors s; epoch := epoch s;
     a_i := a_i s; convergence_count := convergence_count s;
     last_epoch := last_epoch s; message_counter := message_counter s;
     previous_neighbors := previous_neighbors s |}.

Definition set_status (v : Status) (s : State) : State :=
  {| x := x s; status := v; neighbors := neighbors s; epoch := epoch s;
     a_i := a_i s; convergence_count := convergence_count s;
     last_epoch := last_epoch s; message_counter := message_counter s;
     previous_neighbors := previous_neighbors s |}.

Definition set_neighbors (v : gmap string NeighborRecord) (s : State) : State :=
  {| x := x s; status := status s; neighbors := v; epoch := epoch s;
     a_i := a_i s; convergence_count := convergence_count s;
     last_epoch := last_epoch s; message_counter := message_counter s;
     previous_neighbors := previous_neighbors s |}.

Definition set_epoch (v : Z) (s : State) : State :=
  {| x := x s; status := status s; neighbors := neighbors s; epoch := v;
     a_i := a_i s; convergence_count := convergence_count s;
     last_epoch := last_epoch s; message_counter := message_counter s;
     previous_neighbors := previous_neighbors s |}.

Definition set_a_i (v : Q) (s : State) : State :=
  {| x := x s; status := status s; neighbors := neighbors s; epoch := epoch s;
     a_i := v; convergence_count := convergence_count s;
     last_epoch := last_epoch s; message_counter := message_counter s;
     previous_neighbors := previous_neighbors s |}.

Definition set_convergence_count (v : Z) (s : State) : State :=
  {| x := x s; status := status s; neighbors := neighbors s; epoch := epoch s;
     a_i := a_i s; convergence_count := v;
     last_epoch := last_epoch s; message_counter := message_counter s;
     previous_neighbors := previous_neighbors s |}.

Definition set_message_counter (v : Z) (s : State) : State :=
  {| x := x s; status := status s; neighbors := neighbors s; epoch := epoch s;
     a_i := a_i s; convergence_count := convergence_count s;
     last_epoch := last_epoch s; message_counter := v;
     previous_neighbors := previous_neighbors s |}.

Definition set_previous_neighbors (v : gset string) (s : State) : State :=
  {| x := x s; status := status s; neighbors := neighbors s; epoch := epoch s;
     a_i := a_i s; convergence_count := convergence_count s;
     last_epoch := last_epoch s; message_counter := message_counter s;
     previous_neighbors := v |}.

Definition with_state (f : State -> State) (n : Node) : Node :=
  {| node_name := node_name n; region := region n; led := led n;
     peers := peers n; current_q_index := current_q_index n;
     state := f (state n); code_sequence := code_sequence n;
     max_history := max_history n;
     suspicion_triggered := suspicion_triggered n;
     clone_check_log := clone_check_log n; inbox := inbox n;
     console := console n; clock := clock n;
     loop_last_epoch := loop_last_epoch n |}.

Definition set_led (v : bool) (n : Node) : Node :=
  {| node_name := node_name n; region := region n; led := v;
     peers := peers n; current_q_index := current_q_index n;
     state := state n; code_sequence := code_sequence n;
     max_history := max_history n;
     suspicion_triggered := suspicion_triggered n;
     clone_check_log := clone_check_log n; inbox := inbox n;
     console := console n; clock := clock n;
     loop_last_epoch := loop_last_epoch n |}.

Definition set_current_q_index (v : nat) (n : Node) : Node :=
  {| node_name := node_name n; region := region n; led := led n;
     peers := peers n; current_q_index := v;
     state := state n; code_sequence := code_sequence n;
     max_history := max_history n;
     suspicion_triggered := suspicion_triggered n;
     clone_check_log := clone_check_log n; inbox := inbox n;
     console := console n; clock := clock n;
     loop_last_epoch := loop_last_epoch n |}.

Definition set_code_sequence (v : list Q) (n : Node) : Node :=
  {| node_name := node_name n; region := region n; led := led n;
     peers := peers n; current_q_index := current_q_index n;
     state := state n; code_sequence := v;
     max_history := max_history n;
     suspicion_triggered := suspicion_triggered n;
     clone_check_log := clone_check_log n; inbox := inbox n;
     console := console n; clock := clock n;
     loop_last_epoch := loop_last_epoch n |}.

Definition set_suspicion_triggered (v : bool) (n : Node) : Node :=
  {| node_name := node_name n; region := region n; led := led n;
     peers := peers n; current_q_index := current_q_index n;
     state := state n; code_sequence := code_sequence n;
     max_history := max_history n;
     suspicion_triggered := v;
     clone_check_log := clone_check_log n; inbox := inbox n;
     console := console n; clock := clock n;
     loop_last_epoch := loop_last_epoch n |}.

Definition set_clone_check_log (v : gmap (string * Z) Q) (n : Node) : Node :=
  {| node_name := node_name n; region := region n; led := led n;
     peers := peers n; current_q_index := current_q_index n;
     state := state n; code_sequence := code_sequence n;
     max_history := max_history n;
     suspicion_triggered := suspicion_triggered n;
     clone_check_log := v; inbox := inbox n;
     console := console n; clock := clock n;
     loop_last_epoch := loop_last_epoch n |}.

Definition set_inbox (v : list string) (n : Node) : Node :=
  {| node_name := node_name n; region := region n; led := led n;
     peers := peers n; current_q_index := current_q_index n;
     state := state n; code_sequence := code_sequence n;
     max_history := max_history n;
     suspicion_triggered := suspicion_triggered n;
     clone_check_log := clone_check_log n; inbox := v;
     console := console n; clock := clock n;
     loop_last_epoch := loop_last_epoch n |}.

Definition set_console (v : list Output) (n : Node) : Node :=
  {| node_name := node_name n; region := region n; led := led n;
     peers := peers n; current_q_index := current_q_index n;
     state := state n; code_sequence := code_sequence n;
     max_history := max_history n;
     suspicion_triggered := suspicion_triggered n;
     clone_check_log := clone_check_log n; inbox := inbox n;
     console := v; clock := clock n;
     loop_last_epoch := loop_last_epoch n |}.

Definition set_clock (v : Z) (n : Node) : Node :=
  {| node_name := node_name n; region := region n; led := led n;
     peers := peers n; current_q_index := current_q_index n;
     state := state n; code_sequence := code_sequence n;
     max_history := max_history n;
     suspicion_triggered := suspicion_triggered n;
     clone_check_log := clone_check_log n; inbox := inbox n;
     console := console n; clock := v;
     loop_last_epoch := loop_last_epoch n |}.

Definition set_loop_last_epoch (v : Z) (n : Node) : Node :=
  {| node_name := node_name n; region := region n; led := led n;
     peers := peers n; current_q_index := current_q_index n;
     state := state n; code_sequence := code_sequence n;
     max_history := max_history n;
     suspicion_triggered := suspicion_triggered n;
     clone_check_log := clone_check_log n; inbox := inbox n;
     console := console n; clock := clock n;
     loop_last_epoch := v |}.

(** [print] of one of the modelled lines. *)
Definition emit (o : Output) (n : Node) : Node :=
  set_console (console n ++ [o]) n.

(** ** Library code and configuration *)

(** The Python and MicroPython functions the program calls.  [py_float]
    and [py_int] return [None] where Python raises [ValueError],
    [bytes_decode] where it raises [UnicodeError]; [espnow_add_peer] says
    whether registering the address succeeds. *)
Record Builtins := {
  math_sqrt : Q -> Q;
  py_pow : Q -> Q -> Q;
  py_float : string -> option Q;
  py_int : string -> option Z;
  bytes_decode : string -> option string;
  ticks_diff : Z -> Z -> Z;
  espnow_add_peer : string -> bool
}.

(** The names [from config import *] brings in. *)
Record Config := {
  NODE_NAME : string;
  REGION_MAP : gmap string string;
  PEERS : gmap string string;
  p : Q;
  q_list : list Q;
  NETWORK_ID : string;
  EPOCH_INTERVAL_MS : Z;
  CONVERGENCE_THRESHOLD : Q;
  STABLE_EPOCHS_REQUIRED : Z
}.

(** The separator of the wire format, [chr(58)]. *)
Definition colon : Ascii.ascii := Ascii.ascii_of_nat 58.

(** [str.split(sep)] for a one-character separator. *)
Fixpoint split (sep : Ascii.ascii) (s : string) : list string :=
  match s with
  | EmptyString => [EmptyString]
  | String c rest =>
      if Ascii.eqb c sep then EmptyString :: split sep rest
      else match split sep rest with
           | [] => [String c EmptyString]
           | h :: t => String c h :: t
           end
  end.

(** A frame as [process_messages] reads it (lines 122-126): discarded
    without a word, discarded by the [except] clause, or accepted. *)
Inductive Decoded :=
| Ignored
| Failed
| Accepted (name st : string) (x_val : Q) (e : Z).

Section Model.

Context (B : Builtins) (C : Config).

(** [1 / math.sqrt(q)] *)
Definition inv_sqrt (q : Q) : result Q :=
  if Qltb q 0 then Raise ValueError
  else
    let r := math_sqrt B q in
    if Qzerob r then Raise ZeroDivisionError else Ok (1 / r)%Q.

Definition init (now : Z) : result Node :=
  match q_list C !! 0%nat with
  | None => Raise IndexError
  | Some q0 =>
      a ← inv_sqrt q0;
      Ok {| node_name := NODE_NAME C;
            region := default "UNKNOWN"%string (REGION_MAP C !! NODE_NAME C);
            led := false;
            peers := filter (fun kv => kv.1 ≠ NODE_NAME C
                               ∧ espnow_add_peer B kv.2 = true) (PEERS C);
            current_q_index := 0;
            state := {| x := p C; status := STABLE; neighbors := ∅;
                        epoch := 0; a_i := a; convergence_count := 0;
                        last_epoch := now; message_counter := 0;
                        previous_neighbors := ∅ |};
            code_sequence := [];
            max_history := 20;
            suspicion_triggered := false;
            clone_check_log := ∅;
            inbox := [];
            console := [];
            clock := now;
            loop_last_epoch := now |}
  end.

Definition next_q (n : Node) : result (Node * (Q * Q)) :=
  match length (q_list C) with
  | O => Raise ZeroDivisionError
  | len =>
      let idx := ((current_q_index n + 1) mod len)%nat in
      let n := set_current_q_index idx n in
      match q_list C !! idx with
      | None => Raise IndexError
      | Some q => a ← inv_sqrt q; Ok (n, (q, a))
      end
  end.

Definition reciprocal (v : Q) : Q :=
  if Qltb 1 v then (1 / v)%Q else v.

(** The condition of line 63. *)
Definition qualifies (n : Node) (name : string) (data : NeighborRecord) : bool :=
  bool_decide (REGION_MAP C !! name = Some (region n))
  && (epoch (state n) - nb_epoch data <=? 2).

(** The loop of lines 60-65: [(product, valid_neighbors)]. *)
Definition mean_loop (n : Node) : Q * nat :=
  map_fold (fun name data acc =>
              if qualifies n name data
              then ((acc.1 * reciprocal (code data))%Q, S acc.2)
              else acc)
           (1%Q, O) (neighbors (state n)).

Definition calculate_pseudogeometric_mean (n : Node) : Q :=
  let '(product, valid_neighbors) := mean_loop n in
  let product :=
    if Nat.eqb valid_neighbors 0 then reciprocal (x (state n)) else product in
  py_pow B product (a_i (state n)).

(** The mean written as a product over the entries [sel] selects, with
    [reciprocal(x)] for an empty selection; [calculate_pseudogeometric_mean]
    is compared with it below. *)
Definition product_over (entries : list (string * NeighborRecord)) : Q :=
  foldr (fun kv acc => (acc * reciprocal (code kv.2))%Q) 1%Q entries.

Definition mean_over (sel : string -> NeighborRecord -> bool) (n : Node) : Q :=
  let entries :=
    filter (fun kv => sel kv.1 kv.2 = true)
           (map_to_list (neighbors (state n))) in
  py_pow B
    (match entries with
     | [] => reciprocal (x (state n))
     | _ => product_over entries
     end)
    (a_i (state n)).

(** The selection as the specification words it: same region, and a
    recorded epoch within 2 of the node's epoch. *)
Definition within_two (n : Node) (name : string) (data : NeighborRecord) : bool :=
  bool_decide (REGION_MAP C !! name = Some (region n))
  && (Z.abs (epoch (state n) - nb_epoch data) <=? 2).

(** Lines 71-77: [next_q] and the [state.update]. *)
Definition disturbance_update (n : Node) : result Node :=
  '(n, (q, a)) ← next_q n;
  Ok (with_state (fun s =>
        set_convergence_count 0
          (set_status DISTURBED (set_epoch (epoch s + 1) (set_a_i a s)))) n).

(** Lines 78-82, for the mean [mu_i] of line 78. *)
Definition disturbance_commit (mu_i : Q) (n : Node) : result Node :=
  if Qzerob mu_i then Raise ZeroDivisionError
  else
    let x_new := (1 / mu_i)%Q in
    let x_new := if Qltb x_new (12 # 10) then (12 # 10)%Q else x_new in
    Ok (with_state (set_x x_new) n).

Definition handle_disturbance (n : Node) : result Node :=
  n ← disturbance_update n;
  disturbance_commit (calculate_pseudogeometric_mean n) n.

(** Lines 86-90. *)
Definition converge_update (n : Node) : result Node :=
  '(n, (q, a)) ← next_q n;
  Ok (with_state (fun s => set_epoch (epoch s + 1) (set_a_i a s)) n).

(** The test of line 92. *)
Definition stability_predicate (mu_i : Q) (n : Node) : bool :=
  Qltb (x (state n)) 1
  && Qltb (Qabs (mu_i - x (state n))) (CONVERGENCE_THRESHOLD C).

(** Lines 92-99, for the mean [mu_i] of line 91. *)
Definition converge_commit (mu_i : Q) (n : Node) : Node :=
  let n :=
    if stability_predicate mu_i n
    then with_state (fun s =>
           set_convergence_count (convergence_count s + 1) s) n
    else with_state (fun s => set_x mu_i (set_convergence_count 0 s)) n in
  if STABLE_EPOCHS_REQUIRED C <=? convergence_count (state n)
  then with_state (set_status STABLE) n
  else n.

Definition converge_state (n : Node) : result Node :=
  n ← converge_update n;
  Ok (converge_commit (calculate_pseudogeometric_mean n) n).

(** The [mu_i] of line 91, for the node [converge_state] is called on. *)
Definition converge_mean (n : Node) : result Q :=
  n ← converge_update n;
  Ok (calculate_pseudogeometric_mean n).

Definition trigger_alert (n : Node) : Node :=
  if suspicion_triggered n then n
  else set_led false (emit OutBlink (set_suspicion_triggered true n)).

(** Lines 122-126: decoding, the field count, the network identifier and
    the two numeric fields. *)
Definition decode_message (msg : string) : Decoded :=
  match bytes_decode B msg with
  | None => Failed
  | Some text =>
      match split colon text with
      | p0 :: p1 :: p2 :: p3 :: p4 :: p5 :: p6 :: _ =>
          if String.eqb p0 (NETWORK_ID C) then
            match py_float B p3 with
            | None => Failed
            | Some x_val =>
                match py_int B p6 with
                | None => Failed
                | Some e => Accepted p1 p2 x_val e
                end
            end
          else Ignored
      | _ => Ignored
      end
  end.

(** Lines 129-137: the identity and epoch conflict check. *)
Definition clone_check (neighbor_name : string) (x_val : Q) (e : Z)
    (n : Node) : Node :=
  let key := (neighbor_name, e) in
  match clone_check_log n !! key with
  | Some seen =>
      if Qltb (1 # 100) (Qabs (seen - x_val))
      then trigger_alert (emit (OutCloneConflict neighbor_name e) n)
      else n
  | None => set_clone_check_log (<[key := x_val]> (clone_check_log n)) n
  end.

(** Lines 140-146. *)
Definition store_neighbor (neighbor_name st : string) (x_val : Q) (e : Z)
    (n : Node) : Node :=
  match peers n !! neighbor_name with
  | Some _ =>
      with_state (fun s =>
        set_neighbors
          (<[neighbor_name := {| code := x_val; nb_status := st;
                                 nb_epoch := e; last_seen := clock n |}]>
             (neighbors s)) s) n
  | None => n
  end.

(** The body of the loop of [process_messages] for one frame. *)
Definition handle_message (msg : string) (n : Node) : Node :=
  match decode_message msg with
  | Ignored => n
  | Failed => emit OutMessageError n
  | Accepted neighbor_name st x_val e =>
      store_neighbor neighbor_name st x_val e
        (clone_check neighbor_name x_val e n)
  end.

(** The [while True] of [process_messages] over the frames the radio
    holds: [recv(0)] takes the oldest one, and the loop ends when there
    is none or when the frame is empty. *)
Fixpoint process_loop (queue : list string) (n : Node) : Node :=
  match queue with
  | [] => set_inbox [] n
  | msg :: rest =>
      if String.eqb msg EmptyString then set_inbox rest n
      else process_loop rest (handle_message msg n)
  end.

Definition process_messages (n : Node) : Node := process_loop (inbox n) n.

(** Lines 103-114: the comparison with the neighbors of the last call. *)
Definition compare_neighbors (n : Node) : result (Node * bool) :=
  let current_neighbors := dom (neighbors (state n)) in
  let previous := previous_neighbors (state n) in
  if bool_decide (current_neighbors ≠ previous) then
    let added := current_neighbors ∖ previous in
    n ← (if bool_decide (added ≠ ∅) then handle_disturbance n else Ok n);
    Ok (with_state (set_previous_neighbors current_neighbors) n, true)
  else Ok (n, false).

Definition check_topology_change (n : Node) : result (Node * bool) :=
  compare_neighbors (process_messages n).

Definition broadcast_state (n : Node) : result Node :=
  let n := with_state (fun s =>
             set_message_counter (message_counter s + 1) s) n in
  match q_list C !! current_q_index n with
  | None => Raise IndexError
  | Some q =>
      let msg := {| w_network := NETWORK_ID C; w_name := node_name n;
                    w_status := status (state n); w_x := x (state n);
                    w_p := p C; w_q := q; w_epoch := epoch (state n);
                    w_counter := message_counter (state n) |} in
      Ok (set_console
            (console n ++ ((fun kv => OutSend kv.2 msg) <$> map_to_list (peers n)))
            n)
  end.

Definition cleanup_neighbors (n : Node) : Node :=
  let current_time := clock n in
  with_state (fun s =>
    set_neighbors
      (filter (fun kv =>
                 (7 * EPOCH_INTERVAL_MS C
                    <? ticks_diff B current_time (last_seen kv.2)) = false)
              (neighbors s)) s) n.

Definition update_code_sequence (n : Node) : Node :=
  let seq :=
    if (max_history n <=? length (code_sequence n))%nat
    then tail (code_sequence n) else code_sequence n in
  set_code_sequence (seq ++ [x (state n)]) n.

(** The loop of lines 192-198: [(max_dev, suspected_node)]. *)
Definition most_deviating (region_codes : gmap string Q) (region_mean : Q)
    : Q * option string :=
  map_fold (fun name c acc =>
              let d := Qabs (c - region_mean) in
              if Qltb acc.1 d then (d, Some name) else acc)
           (0%Q, None) region_codes.

Definition detect_code_anomaly (n : Node) : Node :=
  if (length (code_sequence n) <? 5)%nat then n
  else
    let region_codes : gmap string Q :=
      code <$> filter (fun kv => REGION_MAP C !! kv.1 = Some (region n))
                      (neighbors (state n)) in
    if (size region_codes <? 2)%nat then n
    else
      let region_mean :=
        (map_fold (fun _ c acc => acc + c) 0 region_codes
           / inject_Z (Z.of_nat (size region_codes)))%Q in
      let deviation := Qabs (x (state n) - region_mean) in
      if Qltb (1 # 2) deviation then
        let n := emit OutAnomaly n in
        match (most_deviating region_codes region_mean).2 with
        | Some suspected_node =>
            if negb (String.eqb suspected_node EmptyString)
               && negb (suspicion_triggered n)
            then trigger_alert (emit (OutCloneRegion suspected_node) n)
            else n
        | None => n
        end
      else n.

(** Lines 235-244: what every tick ends with. *)
Definition finish_tick (n : Node) : result Node :=
  n ← broadcast_state n;
  let n := update_code_sequence n in
  let n := detect_code_anomaly n in
  let n := set_led (bool_decide (status (state n) = STABLE)) n in
  Ok (if epoch (state n) mod 10 =? 0 then cleanup_neighbors n else n).

(** Line 227. *)
Definition count_epoch (n : Node) : Node :=
  with_state (fun s => set_epoch (epoch s + 1) s) n.

(** Lines 229-231, once the frames are read: the comparison, and the
    disturbance of line 231. *)
Definition react_to_topology (n : Node) : result Node :=
  '(n, changed) ← compare_neighbors n;
  if changed : bool then handle_disturbance n else Ok n.

(** Lines 227-244: the body run once per epoch interval. *)
Definition epoch_tick (n : Node) : result Node :=
  let n := count_epoch n in
  n ← (match status (state n) with
       | STABLE =>
           '(n, changed) ← check_topology_change n;
           if changed : bool then handle_disturbance n else Ok n
       | DISTURBED => converge_state n
       end);
  finish_tick n.

(** One turn of the [while True] of [run] (lines 223-246). *)
Definition run_iteration (n : Node) : result Node :=
  let current_time := clock n in
  if EPOCH_INTERVAL_MS C <=? ticks_diff B current_time (loop_last_epoch n)
  then epoch_tick (set_loop_last_epoch current_time n)
  else Ok n.

(** What happens between two turns of the loop: time passes, the radio
    queues a frame [msg] allowed by [allowed]; and a turn of the loop. *)
Inductive step (allowed : string -> Prop) : Node -> Node -> Prop :=
| step_time n t : step allowed n (set_clock t n)
| step_frame n msg :
    allowed msg -> step allowed n (set_inbox (inbox n ++ [msg]) n)
| step_turn n n' : run_iteration n = Ok n' -> step allowed n n'.

Inductive reachable (allowed : string -> Prop) : Node -> Prop :=
| reach_init now n : init now = Ok n -> reachable allowed n
| reach_step n n' :
    reachable allowed n -> step allowed n n' -> reachable allowed n'.

(** A run written down: what the surroundings do, turn by turn. *)
Inductive Action :=
| Wait (t : Z)
| Frame (msg : string)
| Turn.

Fixpoint play (acts : list Action) (n : Node) : result Node :=
  match acts with
  | [] => Ok n
  | Wait t :: rest => play rest (set_clock t n)
  | Frame msg :: rest => play rest (set_inbox (inbox n ++ [msg]) n)
  | Turn :: rest => n ← run_iteration n; play rest n
  end.

Definition frames_of (acts : list Action) : list string :=
  omap (fun a => match a with Frame msg => Some msg | _ => None end) acts.

End Model.

(** ** An instance to run the model on

    Library functions that are exact on the inputs of the worked examples:
    square roots of ratios of squares, powers at integral exponents,
    decimal numerals without exponent part. *)

Module Demo.

Definition digit_of (c : Ascii.ascii) : option Z :=
  let k := Ascii.nat_of_ascii c in
  if ((48 <=? k) && (k <=? 57))%nat then Some (Z.of_nat (k - 48)) else None.

(** The digits of [s] read in base ten after the value [acc], with their
    number. *)
Fixpoint digits (s : string) (acc : Z) (k : nat) : option (Z * nat) :=
  match s with
  | EmptyString => Some (acc, k)
  | String c rest =>
      match digit_of c with
      | Some d => digits rest (10 * acc + d) (S k)
      | None => None
      end
  end.

Definition unsigned_int (s : string) : option Z :=
  match s with
  | EmptyString => None
  | _ => fst <$> digits s 0 0
  end.

Definition minus : Ascii.ascii := Ascii.ascii_of_nat 45.
Definition dot : Ascii.ascii := Ascii.ascii_of_nat 46.

Definition signed {A} (neg : A -> A) (f : string -> option A) (s : string)
    : option A :=
  match s with
  | String c rest => if Ascii.eqb c minus then neg <$> f rest else f s
  | EmptyString => None
  end.

Definition int_of_string : string -> option Z := signed Z.opp unsigned_int.

Definition unsigned_float (s : string) : option Q :=
  match split dot s with
  | [i] => inject_Z <$> unsigned_int i
  | [i; f] =>
      match unsigned_int i, f with
      | Some a, EmptyString => Some (inject_Z a)
      | Some a, _ =>
          match digits f 0 0 with
          | Some (b, k) =>
              Some (Qred (inject_Z a + (b # Pos.pow 10 (Pos.of_nat k))))
          | None => None
          end
      | None, _ => None
      end
  | _ => None
  end.

Definition float_of_string : string -> option Q := signed Qopp unsigned_float.

Definition sqrt_of_squares (q : Q) : Q := Z.sqrt (Qnum q) # Pos.sqrt (Qden q).

Definition pow_integral (b e : Q) : Q := Qpower b (Qfloor e).

Definition builtins : Builtins :=
  {| math_sqrt := sqrt_of_squares;
     py_pow := pow_integral;
     py_float := float_of_string;
     py_int := int_of_string;
     bytes_decode := Some;
     ticks_diff := fun a b => a - b;
     espnow_add_peer := fun _ => true |}.

(** Seven nodes of one region; this node is [A], with [q_list = [1]]. *)
Definition config : Config :=
  {| NODE_NAME := "A";
     REGION_MAP := {[ "A" := "R1" ; "B" := "R1" ; "C" := "R1" ; "D" := "R1" ;
                      "E" := "R1" ; "F" := "R1" ; "G" := "R1" ]};
     PEERS := {[ "A" := "aa" ; "B" := "bb" ; "C" := "cc" ; "D" := "dd" ;
                 "E" := "ee" ; "F" := "ff" ; "G" := "gg" ]};
     p := 1 # 2;
     q_list := [1%Q];
     NETWORK_ID := "GTI";
     EPOCH_INTERVAL_MS := 1000;
     CONVERGENCE_THRESHOLD := 1 # 100;
     STABLE_EPOCHS_REQUIRED := 3 |}.

Definition neighbor (c : Q) (e : Z) : NeighborRecord :=
  {| code := c; nb_status := "STABLE"; nb_epoch := e; last_seen := 0 |}.

(** The node after [__init__] at time 0, or [fallback]. *)
Definition get (r : result Node) (fallback : Node) : Node :=
  match r with
  | Ok n => n
  | Raise _ => fallback
  end.

Definition blank : Node :=
  {| node_name := "A"; region := "R1"; led := false; peers := ∅;
     current_q_index := 0;
     state := {| x := 1 # 2; status := STABLE; neighbors := ∅; epoch := 0;
                 a_i := 1; convergence_count := 0; last_epoch := 0;
                 message_counter := 0; previous_neighbors := ∅ |};
     code_sequence := []; max_history := 20; suspicion_triggered := false;
     clone_check_log := ∅; inbox := []; console := []; clock := 0;
     loop_last_epoch := 0 |}.

Definition started : Node := get (init builtins config 0) blank.




(** A stable node whose table makes the mean of a disturbance 10/9, so
    that [x_new] is 0.9. *)
Definition shaken : Node :=
  with_state (fun s =>
    set_neighbors
      {[ "D" := neighbor (-1) 5 ; "E" := neighbor (- (10 # 9)) 5 ]} s) started.

Definition shaken1 : Node := get (handle_disturbance builtins config shaken) blank.


(** At epoch 1, with one neighbor of the region that claims epoch 100. *)
Definition behind : Node :=
  with_state (fun s =>
    set_epoch 1 (set_neighbors {[ "B" := neighbor (1 # 4) 100 ]} s)) started.


(** The frames of the worked examples. *)
Definition frame_B_100 : string := "GTI:B:STABLE:1.00:1.0:1:5:1".
Definition frame_B_105 : string := "GTI:B:STABLE:1.05:1.0:1:5:2".
Definition frame_short : string := "GTI:B:STABLE:1.0:1".

(** The started node once it has handled [frame_B_100]. *)
Definition heard : Node := handle_message builtins config frame_B_100 started.


Definition frame_C_080 : string := "GTI:C:STABLE:0.80:1.0:1:3:1".

(** [C] is heard in the first tick, which disturbs the node; a frame of
    [B] is then waiting in the queue. *)
Definition to_disturbed : list Action :=
  [Frame frame_C_080; Wait 1000; Turn; Frame frame_B_100; Wait 2000].

Definition disturbed : Node := get (play builtins config to_disturbed started) blank.

Definition deaf : Node := get (epoch_tick builtins config disturbed) blank.


(** The started node with two frames waiting. *)
Definition listening : Node := set_inbox [frame_B_100; frame_B_105] started.

Definition listened : Node := get (epoch_tick builtins config listening) blank.


(** [k] turns of the loop, one epoch interval apart, from time [1000 * i]. *)
Definition turns (i k : nat) : list Action :=
  flat_map (fun j => [Wait (1000 * Z.of_nat j); Turn]) (seq i k).

(** [C] is heard in the first tick; the node is stable again after the
    fifth, and the tick that ends epoch 20 evicts the entry of [C]. *)
Definition to_calm : list Action := Frame frame_C_080 :: turns 1 14.

Definition calm : Node := get (play builtins config to_calm started) blank.

Definition upset : Node := get (epoch_tick builtins config calm) blank.

(** The stable node of the run, one tick before the eviction. *)
Definition settled : Node :=
  get (play builtins config (Frame frame_C_080 :: turns 1 12) started) blank.

Definition settled1 : Node := get (epoch_tick builtins config settled) blank.


(** The two conflicting frames of [B] are read in the first tick, which
    gives the alert and disturbs the node; it is stable again after the
    fifth tick, and a third conflicting frame is then waiting. *)
Definition to_alarmed : list Action :=
  [Frame frame_B_100; Frame frame_B_105] ++ turns 1 5
    ++ [Frame frame_B_105; Wait 6000].

Definition alarmed : Node := get (play builtins config to_alarmed started) blank.

Definition alarmed1 : Node := get (run_iteration builtins config alarmed) blank.

Definition conflicts (n : Node) : nat :=
  length (filter (fun o => match o with
                           | OutCloneConflict _ _ => true
                           | _ => false
                           end = true) (console n)).


(** This node with the three exponents 1, 2 and 3. *)
Definition config3 : Config :=
  {| NODE_NAME := "A";
     REGION_MAP := REGION_MAP config;
     PEERS := PEERS config;
     p := 1 # 2;
     q_list := [1%Q; (1 # 4)%Q; (1 # 9)%Q];
     NETWORK_ID := "GTI";
     EPOCH_INTERVAL_MS := 1000;
     CONVERGENCE_THRESHOLD := 1 # 100;
     STABLE_EPOCHS_REQUIRED := 3 |}.


End Demo.

(** ** Comparisons *)

Lemma Qltb_lt (a b : Q) : Qltb a b = true <-> (a < b)%Q.
Proof.
  unfold Qltb. rewrite Qlt_alt.
  destruct (a ?= b)%Q; split; intros H; congruence.
Qed.

Lemma Qltb_ge (a b : Q) : Qltb a b = false <-> (b <= a)%Q.
Proof.
  split; intros H.
  - apply Qnot_lt_le. intros Hlt. apply Qltb_lt in Hlt. congruence.
  - destruct (Qltb a b) eqn:E; [|reflexivity].
    apply Qltb_lt in E. exfalso. exact (Qlt_not_le _ _ E H).
Qed.

Lemma Qzerob_true (a : Q) : Qzerob a = true <-> (a == 0)%Q.
Proof. apply Qeq_bool_iff. Qed.

Lemma Qzerob_false (a : Q) : Qzerob a = false <-> ~ (a == 0)%Q.
Proof.
  rewrite <- Qzerob_true. destruct (Qzerob a); split; intros H; congruence.
Qed.

(** The clamp of lines 80-81 is [max(x_new, 1.2)]. *)
Lemma clamp_is_max (v : Q) :
  (if Qltb v (12 # 10) then (12 # 10)%Q else v) = Qmax v (12 # 10).
Proof.
  unfold Qltb, Qmax, GenericMinMax.gmax.
  destruct (v ?= 12 # 10)%Q; reflexivity.
Qed.

(** ** Results *)

Lemma bind_Ok {A R} (r : result A) (k : A -> result R) (b : R) :
  r ≫= k = Ok b -> exists a, r = Ok a /\ k a = Ok b.
Proof. destruct r as [a|e]; simpl; intros H; [eauto | discriminate]. Qed.

(** Closed facts about the demo instance are settled by evaluation. *)
Ltac by_evaluation :=
  repeat match goal with
         | |- _ /\ _ => split
         end;
  vm_compute; reflexivity.

Ltac inv_ok :=
  repeat match goal with
         | H : Ok _ = Ok _ |- _ => injection H as H; try subst
         | H : Raise _ = Ok _ |- _ => discriminate H
         | H : _ ≫= _ = Ok _ |- _ =>
             let a := fresh "r" in
             let Ha := fresh "Hr" in
             apply bind_Ok in H; destruct H as (a & Ha & H)
         end.

Section Facts.

Context (B : Builtins) (C : Config).

(** *** The rotation of [q] *)

Lemma next_q_spec (n m : Node) (q a : Q) :
  next_q B C n = Ok (m, (q, a)) ->
  m = set_current_q_index
        ((current_q_index n + 1) mod length (q_list C))%nat n
  /\ q_list C !! current_q_index m = Some q
  /\ a = (1 / math_sqrt B q)%Q
  /\ ~ (math_sqrt B q == 0)%Q.
Proof.
  unfold next_q, inv_sqrt. intros H.
  destruct (length (q_list C)) as [|len] eqn:Hlen; [discriminate|].
  destruct (q_list C !! _) as [q'|] eqn:Hq; [|discriminate].
  destruct (Qltb q' 0); [discriminate|].
  destruct (Qzerob (math_sqrt B q')) eqn:Hz; [discriminate|].
  simpl in H. injection H as <- <- <-.
  apply Qzerob_false in Hz. auto.
Qed.

(** *** [converge_state] *)

Lemma converge_update_spec (n m : Node) :
  converge_update B C n = Ok m ->
  exists q,
    m = with_state
          (fun s => set_epoch (epoch s + 1) (set_a_i (1 / math_sqrt B q)%Q s))
          (set_current_q_index
             ((current_q_index n + 1) mod length (q_list C))%nat n)
    /\ q_list C !! current_q_index m = Some q
    /\ ~ (math_sqrt B q == 0)%Q.
Proof.
  unfold converge_update. intros H. inv_ok.
  destruct r as [m0 [q a]]. inv_ok.
  apply next_q_spec in Hr as (-> & Hq & -> & Hz).
  exists q. auto.
Qed.

Lemma converge_state_commit (n n' : Node) :
  converge_state B C n = Ok n' ->
  exists m,
    converge_update B C n = Ok m
    /\ converge_mean B C n = Ok (calculate_pseudogeometric_mean B C m)
    /\ n' = converge_commit C (calculate_pseudogeometric_mean B C m) m
    /\ x (state m) = x (state n)
    /\ convergence_count (state m) = convergence_count (state n)
    /\ status (state m) = status (state n).
Proof.
  unfold converge_state, converge_mean. intros H. inv_ok.
  exists r. rewrite Hr. simpl.
  apply converge_update_spec in Hr as (q & -> & _). repeat split.
Qed.


Lemma converge_commit_spec (mu : Q) (n : Node) :
  let n' := converge_commit C mu n in
  (stability_predicate C mu n = true ->
     convergence_count (state n') = convergence_count (state n) + 1
     /\ x (state n') = x (state n))
  /\ (stability_predicate C mu n = false ->
      convergence_count (state n') = 0 /\ x (state n') = mu)
  /\ status (state n')
     = (if STABLE_EPOCHS_REQUIRED C <=? convergence_count (state n')
        then STABLE else status (state n)).
Proof.
  unfold converge_commit.
  destruct (stability_predicate C mu n); simpl;
    match goal with
    | |- context [?a <=? ?b] => destruct (a <=? b) eqn:E
    end; simpl; rewrite ?E; repeat split; intros; congruence.
Qed.

(** *** [handle_disturbance] *)

Lemma disturbance_update_spec (n m : Node) :
  disturbance_update B C n = Ok m ->
  exists q,
    m = with_state
          (fun s =>
             set_convergence_count 0
               (set_status DISTURBED
                  (set_epoch (epoch s + 1)
                     (set_a_i (1 / math_sqrt B q)%Q s))))
          (set_current_q_index
             ((current_q_index n + 1) mod length (q_list C))%nat n)
    /\ q_list C !! current_q_index m = Some q
    /\ ~ (math_sqrt B q == 0)%Q.
Proof.
  unfold disturbance_update. intros H. inv_ok.
  destruct r as [m0 [q a]]. inv_ok.
  apply next_q_spec in Hr as (-> & Hq & -> & Hz).
  exists q. auto.
Qed.

Lemma disturbance_commit_spec (mu : Q) (m n' : Node) :
  disturbance_commit mu m = Ok n' <->
  ~ (mu == 0)%Q /\ n' = with_state (set_x (Qmax (1 / mu) (12 # 10))) m.
Proof.
  unfold disturbance_commit. rewrite clamp_is_max.
  destruct (Qzerob mu) eqn:E.
  - apply Qzerob_true in E. split; [discriminate | tauto].
  - apply Qzerob_false in E. split.
    + intros H. injection H as <-. auto.
    + intros [_ ->]. reflexivity.
Qed.

Lemma handle_disturbance_spec (n n' : Node) :
  handle_disturbance B C n = Ok n' <->
  exists m,
    disturbance_update B C n = Ok m
    /\ ~ (calculate_pseudogeometric_mean B C m == 0)%Q
    /\ n' = with_state
              (set_x (Qmax (1 / calculate_pseudogeometric_mean B C m)
                           (12 # 10))) m.
Proof.
  unfold handle_disturbance. split.
  - intros H. inv_ok. exists r. split; [exact Hr|].
    apply disturbance_commit_spec. exact H.
  - intros (m & -> & H). simpl. apply disturbance_commit_spec. exact H.
Qed.


(** *** The pseudo-geometric mean *)

Lemma reciprocal_above (v : Q) : (1 < v)%Q -> reciprocal v = (1 / v)%Q.
Proof. intros H. unfold reciprocal. apply Qltb_lt in H. rewrite H. reflexivity. Qed.

Lemma reciprocal_below (v : Q) : (v <= 1)%Q -> reciprocal v = v.
Proof. intros H. unfold reciprocal. apply Qltb_ge in H. rewrite H. reflexivity. Qed.

Lemma qualifies_spec (n : Node) (name : string) (data : NeighborRecord) :
  qualifies C n name data = true
  <-> REGION_MAP C !! name = Some (region n)
      /\ epoch (state n) - nb_epoch data <= 2.
Proof.
  unfold qualifies.
  rewrite andb_true_iff, bool_decide_eq_true, Z.leb_le. reflexivity.
Qed.

Lemma mean_loop_filter (n : Node) :
  let entries :=
    filter (fun kv => qualifies C n kv.1 kv.2 = true)
           (map_to_list (neighbors (state n))) in
  mean_loop C n = (product_over entries, length entries).
Proof.
  unfold mean_loop. rewrite map_fold_foldr.
  induction (map_to_list (neighbors (state n))) as [|[name data] l IH];
    [reflexivity|].
  simpl in *. rewrite IH. rewrite filter_cons. simpl.
  destruct (qualifies C n name data) eqn:E.
  - rewrite decide_True by reflexivity. reflexivity.
  - rewrite decide_False by discriminate. reflexivity.
Qed.

Lemma calculate_pseudogeometric_mean_over (n : Node) :
  calculate_pseudogeometric_mean B C n = mean_over B (qualifies C n) n.
Proof.
  unfold calculate_pseudogeometric_mean, mean_over.
  rewrite mean_loop_filter.
  destruct (filter _ _); reflexivity.
Qed.


(** *** Frames *)

(** [n'] differs from [n] only in what the consensus engine owns: the
    dict [self.state] and the index into [q_list]. *)
Definition engine_frame (n n' : Node) : Prop :=
  n' = with_state (fun _ => state n')
         (set_current_q_index (current_q_index n') n).

(** [n'] differs from [n] only in what handling a frame may change: the
    neighbor table, the clone log, the alert flag, the LED and the
    console. *)
Definition message_frame (n n' : Node) : Prop :=
  n' = with_state (set_neighbors (neighbors (state n')))
         (set_clone_check_log (clone_check_log n')
            (set_suspicion_triggered (suspicion_triggered n')
               (set_led (led n')
                  (set_console (console n') n)))).

(** The same, and the queue of the radio. *)
Definition radio_frame (n n' : Node) : Prop :=
  message_frame (set_inbox (inbox n') n) n'.

Lemma message_frame_refl (n : Node) : message_frame n n.
Proof. destruct n as [? ? ? ? ? []]; reflexivity. Qed.

Lemma message_frame_trans (a b c : Node) :
  message_frame a b -> message_frame b c -> message_frame a c.
Proof.
  unfold message_frame. intros Hab Hbc. rewrite Hbc at 1. rewrite Hab at 1.
  destruct a as [? ? ? ? ? []]; reflexivity.
Qed.

Lemma message_frame_inbox (n n' : Node) :
  message_frame n n' -> inbox n' = inbox n.
Proof. intros H. rewrite H. reflexivity. Qed.

Lemma message_frame_radio (n n' : Node) :
  message_frame n n' -> radio_frame n n'.
Proof.
  intros H. unfold radio_frame. rewrite (message_frame_inbox _ _ H).
  replace (set_inbox (inbox n) n) with n by (destruct n; reflexivity).
  exact H.
Qed.

Lemma radio_frame_refl (n : Node) : radio_frame n n.
Proof. apply message_frame_radio, message_frame_refl. Qed.

Lemma radio_frame_trans (a b c : Node) :
  radio_frame a b -> radio_frame b c -> radio_frame a c.
Proof.
  unfold radio_frame, message_frame. intros Hab Hbc.
  rewrite Hbc at 1. rewrite Hab at 1.
  destruct a as [? ? ? ? ? []]; reflexivity.
Qed.

Lemma handle_disturbance_frame (n n' : Node) :
  handle_disturbance B C n = Ok n' -> engine_frame n n'.
Proof.
  intros H. apply handle_disturbance_spec in H as (m & Hm & _ & ->).
  apply disturbance_update_spec in Hm as (q & -> & _).
  destruct n as [? ? ? ? ? []]; reflexivity.
Qed.

Lemma converge_state_frame (n n' : Node) :
  converge_state B C n = Ok n' -> engine_frame n n'.
Proof.
  intros H. apply converge_state_commit in H as (m & Hm & _ & -> & _).
  apply converge_update_spec in Hm as (q & -> & _).
  unfold engine_frame, converge_commit.
  destruct n as [? ? ? ? ? []]; simpl.
  destruct (stability_predicate _ _ _); simpl;
    match goal with
    | |- context [?a <=? ?b] => destruct (a <=? b)
    end; reflexivity.
Qed.

(** *** One frame of the radio *)

Lemma trigger_alert_frame (n : Node) : message_frame n (trigger_alert n).
Proof.
  unfold trigger_alert.
  destruct n as [? ? ? ? ? [] ? ? []]; reflexivity.
Qed.

Lemma clone_check_frame (name : string) (v : Q) (e : Z) (n : Node) :
  message_frame n (clone_check name v e n).
Proof.
  unfold clone_check.
  destruct (clone_check_log n !! (name, e)) as [seen|].
  - destruct (Qltb _ _); [|apply message_frame_refl].
    eapply message_frame_trans; [|apply trigger_alert_frame].
    destruct n as [? ? ? ? ? []]; reflexivity.
  - destruct n as [? ? ? ? ? []]; reflexivity.
Qed.

Lemma store_neighbor_frame (name st : string) (v : Q) (e : Z) (n : Node) :
  message_frame n (store_neighbor name st v e n).
Proof.
  unfold store_neighbor.
  destruct (peers n !! name); destruct n as [? ? ? ? ? []]; reflexivity.
Qed.

Lemma handle_message_frame (msg : string) (n : Node) :
  message_frame n (handle_message B C msg n).
Proof.
  unfold handle_message.
  destruct (decode_message B C msg) as [| |name st v e].
  - apply message_frame_refl.
  - destruct n as [? ? ? ? ? []]; reflexivity.
  - eapply message_frame_trans; [apply clone_check_frame|].
    apply store_neighbor_frame.
Qed.

Lemma process_loop_frame (queue : list string) (n : Node) :
  radio_frame n (process_loop B C queue n).
Proof.
  revert n. induction queue as [|msg rest IH]; intros n; simpl.
  - destruct n as [? ? ? ? ? []]; reflexivity.
  - destruct (String.eqb msg EmptyString).
    + destruct n as [? ? ? ? ? []]; reflexivity.
    + eapply radio_frame_trans; [|apply IH].
      apply message_frame_radio, handle_message_frame.
Qed.

Lemma decode_message_accepted (msg name st : string) (v : Q) (e : Z) :
  decode_message B C msg = Accepted name st v e <->
  exists text f3 f6,
    bytes_decode B msg = Some text
    /\ (7 <= length (split colon text))%nat
    /\ split colon text !! 0%nat = Some (NETWORK_ID C)
    /\ split colon text !! 1%nat = Some name
    /\ split colon text !! 2%nat = Some st
    /\ split colon text !! 3%nat = Some f3 /\ py_float B f3 = Some v
    /\ split colon text !! 6%nat = Some f6 /\ py_int B f6 = Some e.
Proof.
  unfold decode_message. split.
  - destruct (bytes_decode B msg) as [text|]; [|discriminate].
    destruct (split colon text)
      as [|p0 [|p1 [|p2 [|p3 [|p4 [|p5 [|p6 r]]]]]]] eqn:Es; try discriminate.
    destruct (String.eqb p0 (NETWORK_ID C)) eqn:E0; [|discriminate].
    apply String.eqb_eq in E0. subst p0.
    destruct (py_float B p3) as [v'|] eqn:E3; [|discriminate].
    destruct (py_int B p6) as [e'|] eqn:E6; [|discriminate].
    intros H. injection H as -> -> -> ->.
    exists text, p3, p6. rewrite Es. simpl. repeat split; try done. lia.
  - intros (text & f3 & f6 & -> & Hlen & H0 & H1 & H2 & H3 & Hv & H6 & He).
    destruct (split colon text)
      as [|p0 [|p1 [|p2 [|p3 [|p4 [|p5 [|p6 r]]]]]]]; simpl in Hlen; try lia.
    simpl in *. simplify_eq. rewrite String.eqb_refl, Hv, He. reflexivity.
Qed.

(** A frame that line 123 or the [except] clause turns away: it has fewer
    than 7 fields, or another network identifier, or a field 3 or 6 that
    [float] or [int] refuses. *)
Definition malformed (msg : string) : Prop :=
  match bytes_decode B msg with
  | None => True
  | Some text =>
      let parts := split colon text in
      (length parts < 7)%nat
      \/ parts !! 0%nat <> Some (NETWORK_ID C)
      \/ parts !! 3%nat ≫= py_float B = None
      \/ parts !! 6%nat ≫= py_int B = None
  end.

Lemma malformed_not_accepted (msg : string) :
  malformed msg ->
  decode_message B C msg = Ignored \/ decode_message B C msg = Failed.
Proof.
  unfold malformed, decode_message.
  destruct (bytes_decode B msg) as [text|]; [|auto].
  destruct (split colon text)
    as [|p0 [|p1 [|p2 [|p3 [|p4 [|p5 [|p6 r]]]]]]]; simpl; auto.
  destruct (String.eqb p0 (NETWORK_ID C)) eqn:E0; [|auto].
  apply String.eqb_eq in E0. subst p0.
  destruct (py_float B p3) as [v'|]; [|auto].
  destruct (py_int B p6) as [e'|]; [|auto].
  intros [H|[H|[H|H]]]; try discriminate; try lia. congruence.
Qed.

(** *** Induction over a tick *)

Section TickInduction.

Context (R : Node -> Node -> Prop).
Context (R_refl : forall n, R n n).
Context (R_trans : forall a b c, R a b -> R b c -> R a c).

Lemma process_loop_rel (queue : list string) (n : Node) :
  (forall v m, R m (set_inbox v m)) ->
  (forall msg m, msg ∈ queue -> inbox m = inbox n ->
                 R m (handle_message B C msg m)) ->
  R n (process_loop B C queue n).
Proof.
  intros Hin Hmsg. revert n Hmsg.
  induction queue as [|msg rest IH]; intros n Hmsg; simpl; [apply Hin|].
  destruct (String.eqb msg EmptyString); [apply Hin|].
  eapply R_trans; [apply Hmsg; [left|reflexivity] |].
  apply IH. intros msg' m Hel Hm. apply Hmsg; [right; exact Hel|].
  rewrite Hm. apply message_frame_inbox, handle_message_frame.
Qed.

Lemma epoch_tick_rel (n n' : Node) :
  (forall m, R m (count_epoch m)) ->
  (forall m, inbox m = inbox n -> R m (process_messages B C m)) ->
  (forall m m', handle_disturbance B C m = Ok m' -> R m m') ->
  (forall m m', converge_state B C m = Ok m' -> R m m') ->
  (forall m v, R m (with_state (set_previous_neighbors v) m)) ->
  (forall m m', broadcast_state C m = Ok m' -> R m m') ->
  (forall m, R m (update_code_sequence m)) ->
  (forall m, R m (detect_code_anomaly C m)) ->
  (forall m v, R m (set_led v m)) ->
  (forall m, R m (cleanup_neighbors B C m)) ->
  epoch_tick B C n = Ok n' -> R n n'.
Proof.
  intros Hep Hpm Hhd Hcs Hprev Hbc Hup Hdet Hled Hcl H.
  unfold epoch_tick in H. inv_ok.
  eapply R_trans; [apply Hep|].
  assert (H1 : R (count_epoch n) r).
  { destruct (status _).
    - inv_ok. destruct r0 as [m changed].
      unfold check_topology_change, compare_neighbors in Hr0.
      assert (Hm : R m r).
      { destruct changed; [eapply Hhd; exact Hr | inv_ok; apply R_refl]. }
      eapply R_trans; [|exact Hm].
      eapply R_trans; [apply Hpm; reflexivity|].
      destruct (bool_decide _); inv_ok; [|apply R_refl].
      eapply R_trans; [|apply Hprev].
      destruct (bool_decide _); inv_ok; [eapply Hhd; eauto | apply R_refl].
    - eapply Hcs; exact Hr. }
  eapply R_trans; [exact H1|].
  unfold finish_tick in H. inv_ok.
  eapply R_trans; [eapply Hbc; exact Hr0|].
  eapply R_trans; [apply Hup|].
  eapply R_trans; [apply Hdet|].
  eapply R_trans; [apply Hled|].
  destruct (_ =? _); [apply Hcl | apply R_refl].
Qed.

End TickInduction.


(** *** The clone log *)



Lemma trigger_alert_effect (n : Node) :
  console (trigger_alert n)
  = console n ++ (if suspicion_triggered n then [] else [OutBlink])
  /\ suspicion_triggered (trigger_alert n) = true
  /\ clone_check_log (trigger_alert n) = clone_check_log n
  /\ state (trigger_alert n) = state n.
Proof.
  unfold trigger_alert. destruct (suspicion_triggered n) eqn:E; simpl.
  - rewrite app_nil_r. auto.
  - auto.
Qed.

Lemma store_neighbor_effect (name st : string) (v : Q) (e : Z) (n : Node) :
  console (store_neighbor name st v e n) = console n
  /\ suspicion_triggered (store_neighbor name st v e n) = suspicion_triggered n
  /\ clone_check_log (store_neighbor name st v e n) = clone_check_log n
  /\ neighbors (state (store_neighbor name st v e n))
     = match peers n !! name with
       | Some _ =>
           <[name := {| code := v; nb_status := st; nb_epoch := e;
                        last_seen := clock n |}]> (neighbors (state n))
       | None => neighbors (state n)
       end.
Proof. unfold store_neighbor. destruct (peers n !! name); auto. Qed.



Lemma detect_code_anomaly_frame (n : Node) :
  message_frame n (detect_code_anomaly C n)
  /\ clone_check_log (detect_code_anomaly C n) = clone_check_log n
  /\ state (detect_code_anomaly C n) = state n.
Proof.
  unfold detect_code_anomaly.
  repeat match goal with
         | |- context [if ?b then _ else _] => destruct b
         | |- context [match ?o with Some _ => _ | None => _ end] => destruct o
         end;
    try (split; [apply message_frame_refl | split; reflexivity]).
  - split.
    + eapply message_frame_trans; [|apply trigger_alert_frame].
      destruct n as [? ? ? ? ? []]; reflexivity.
    + destruct (trigger_alert_effect
                  (emit (OutCloneRegion s) (emit OutAnomaly n)))
        as (_ & _ & -> & ->). split; reflexivity.
  - split; [|split; reflexivity]. destruct n as [? ? ? ? ? []]; reflexivity.
  - split; [|split; reflexivity]. destruct n as [? ? ? ? ? []]; reflexivity.
Qed.

Lemma broadcast_state_effect (n n' : Node) :
  broadcast_state C n = Ok n' ->
  exists sent,
    n' = set_console (console n ++ sent)
           (with_state (fun s =>
              set_message_counter (message_counter s + 1) s) n)
    /\ Forall (fun o => o <> OutBlink) sent.
Proof.
  unfold broadcast_state. simpl.
  destruct (q_list C !! current_q_index n) as [q|]; [|discriminate].
  intros H. injection H as <-. eexists. split; [reflexivity|].
  apply Forall_fmap, Forall_forall. intros kv _. discriminate.
Qed.



(** *** The parts of a tick *)

Lemma epoch_tick_stable (n : Node) :
  status (state n) = STABLE ->
  epoch_tick B C n
  = react_to_topology B C (process_messages B C (count_epoch n))
      ≫= finish_tick B C.
Proof.
  intros Hs. unfold epoch_tick, react_to_topology, check_topology_change.
  simpl. rewrite Hs. reflexivity.
Qed.

Lemma epoch_tick_disturbed (n : Node) :
  status (state n) = DISTURBED ->
  epoch_tick B C n = converge_state B C (count_epoch n) ≫= finish_tick B C.
Proof. intros Hs. unfold epoch_tick. simpl. rewrite Hs. reflexivity. Qed.

Lemma message_frame_fields (n n' : Node) :
  message_frame n n' ->
  inbox n' = inbox n
  /\ current_q_index n' = current_q_index n
  /\ peers n' = peers n
  /\ clock n' = clock n
  /\ code_sequence n' = code_sequence n
  /\ x (state n') = x (state n)
  /\ status (state n') = status (state n)
  /\ epoch (state n') = epoch (state n)
  /\ a_i (state n') = a_i (state n)
  /\ convergence_count (state n') = convergence_count (state n)
  /\ previous_neighbors (state n') = previous_neighbors (state n).
Proof. intros H. rewrite H. repeat split. Qed.

Lemma engine_frame_fields (n n' : Node) :
  engine_frame n n' ->
  inbox n' = inbox n
  /\ console n' = console n
  /\ suspicion_triggered n' = suspicion_triggered n
  /\ clone_check_log n' = clone_check_log n
  /\ peers n' = peers n
  /\ clock n' = clock n.
Proof. intros H. rewrite H. repeat split. Qed.

(** The end of a tick counts the message, may evict neighbors, and leaves
    the rest of [self.state], the index, the queue and the log alone. *)
Lemma finish_tick_effect (n n' : Node) :
  finish_tick B C n = Ok n' ->
  exists nb,
    state n'
    = set_neighbors nb
        (set_message_counter (message_counter (state n) + 1) (state n))
    /\ nb ⊆ neighbors (state n)
    /\ (epoch (state n) mod 10 <> 0 -> nb = neighbors (state n))
    /\ current_q_index n' = current_q_index n
    /\ inbox n' = inbox n
    /\ clone_check_log n' = clone_check_log n.
Proof.
  unfold finish_tick. intros H. inv_ok.
  apply broadcast_state_effect in Hr as (sent & -> & _).
  set (m := update_code_sequence _).
  assert (Hsm : state m
                = set_message_counter (message_counter (state n) + 1) (state n))
    by reflexivity.
  assert (Hqm : current_q_index m = current_q_index n) by reflexivity.
  assert (Him : inbox m = inbox n) by reflexivity.
  assert (Hlm : clone_check_log m = clone_check_log n) by reflexivity.
  destruct (detect_code_anomaly_frame m) as (F & Hlog & Hst).
  apply message_frame_fields in F as (Hin & Hq & _).
  rewrite Hsm in Hst. rewrite Hqm in Hq. rewrite Him in Hin.
  rewrite Hlm in Hlog. clear Hsm Hqm Him Hlm.
  generalize dependent (detect_code_anomaly C m). clear m.
  intros d Hin Hq Hlog Hst.
  destruct d as [? ? ? ? ? ds]; simpl in *. subst.
  destruct (_ =? _) eqn:E; simpl.
  - eexists. split; [reflexivity|]. split; [apply map_filter_subseteq|].
    split; [|auto]. apply Z.eqb_eq in E. intros Hne. contradiction.
  - exists (neighbors (state n)).
    split; [destruct (state n); reflexivity|]. auto.
Qed.

Lemma process_messages_foldl (n : Node) :
  (forall msg, msg ∈ inbox n -> msg <> EmptyString) ->
  process_messages B C n
  = set_inbox [] (foldl (fun m msg => handle_message B C msg m) n (inbox n)).
Proof.
  unfold process_messages. generalize (inbox n) as queue.
  intros queue. revert n. induction queue as [|msg rest IH]; intros n Hne.
  - reflexivity.
  - simpl. assert (Hm : msg <> EmptyString) by (apply Hne; left).
    apply String.eqb_neq in Hm. rewrite Hm.
    apply IH. intros msg' Hel. apply Hne. right. exact Hel.
Qed.

Lemma compare_neighbors_inbox (n n' : Node) (changed : bool) :
  compare_neighbors B C n = Ok (n', changed) ->
  inbox n' = inbox n /\ clone_check_log n' = clone_check_log n.
Proof.
  unfold compare_neighbors. intros H.
  destruct (bool_decide _); inv_ok; [|auto].
  destruct (bool_decide _); inv_ok; [|auto].
  apply handle_disturbance_frame, engine_frame_fields in Hr
    as (Hi & _ & _ & Hl & _). simpl. auto.
Qed.

Lemma react_to_topology_inbox (n n' : Node) :
  react_to_topology B C n = Ok n' ->
  inbox n' = inbox n /\ clone_check_log n' = clone_check_log n.
Proof.
  unfold react_to_topology. intros H. inv_ok. destruct r as [m changed].
  apply compare_neighbors_inbox in Hr as [Hi Hl].
  destruct changed; inv_ok; [|auto].
  apply handle_disturbance_frame, engine_frame_fields in H
    as (Hi' & _ & _ & Hl' & _). split; congruence.
Qed.


(** *** Runs *)

Lemma play_reachable (allowed : string -> Prop) (acts : list Action)
    (n n' : Node) :
  reachable B C allowed n ->
  Forall allowed (frames_of acts) ->
  play B C acts n = Ok n' ->
  reachable B C allowed n'.
Proof.
  revert n. induction acts as [|a rest IH]; intros n Hn Hall H; simpl in H.
  - injection H as <-. exact Hn.
  - destruct a as [t|msg|].
    + eapply IH; [|exact Hall|exact H].
      eapply reach_step; [exact Hn | apply step_time].
    + unfold frames_of in Hall. simpl in Hall.
      apply Forall_cons in Hall as [Hmsg Hall].
      eapply IH; [|exact Hall|exact H].
      eapply reach_step; [exact Hn | apply step_frame; exact Hmsg].
    + inv_ok. eapply IH; [|exact Hall|exact H].
      eapply reach_step; [exact Hn | apply step_turn; exact Hr].
Qed.


(** *** The epoch counter *)

Lemma handle_disturbance_epoch (n n' : Node) :
  handle_disturbance B C n = Ok n' ->
  epoch (state n') = epoch (state n) + 1.
Proof.
  intros H. apply handle_disturbance_spec in H as (m & Hm & _ & ->).
  apply disturbance_update_spec in Hm as (q & -> & _). reflexivity.
Qed.

Lemma converge_commit_epoch (mu : Q) (n : Node) :
  epoch (state (converge_commit C mu n)) = epoch (state n)
  /\ current_q_index (converge_commit C mu n) = current_q_index n
  /\ a_i (state (converge_commit C mu n)) = a_i (state n).
Proof.
  unfold converge_commit.
  destruct (stability_predicate C mu n); simpl;
    match goal with
    | |- context [?a <=? ?b] => destruct (a <=? b)
    end; auto.
Qed.

Lemma converge_state_epoch (n n' : Node) :
  converge_state B C n = Ok n' ->
  epoch (state n') = epoch (state n) + 1.
Proof.
  intros H. apply converge_state_commit in H as (m & Hm & _ & -> & _).
  apply converge_update_spec in Hm as (q & -> & _).
  rewrite (proj1 (converge_commit_epoch _ _)). reflexivity.
Qed.

(** The identities that appeared since the last comparison. *)
Definition added (n : Node) : gset string :=
  dom (neighbors (state n)) ∖ previous_neighbors (state n).

Lemma compare_neighbors_spec (n n' : Node) (changed : bool) :
  compare_neighbors B C n = Ok (n', changed) ->
  changed
  = bool_decide (dom (neighbors (state n)) ≠ previous_neighbors (state n))
  /\ (dom (neighbors (state n)) = previous_neighbors (state n) -> n' = n)
  /\ (dom (neighbors (state n)) ≠ previous_neighbors (state n) ->
      added n = ∅ ->
      n' = with_state
             (set_previous_neighbors (dom (neighbors (state n)))) n)
  /\ (added n ≠ ∅ ->
      exists d,
        handle_disturbance B C n = Ok d
        /\ n' = with_state
                  (set_previous_neighbors (dom (neighbors (state n)))) d).
Proof.
  unfold compare_neighbors, added. intros H.
  destruct (bool_decide_reflect
              (dom (neighbors (state n)) ≠ previous_neighbors (state n)))
    as [Hne|Heq].
  - destruct (bool_decide_reflect
                (dom (neighbors (state n)) ∖ previous_neighbors (state n) ≠ ∅))
      as [Ha|Ha]; inv_ok.
    + split; [reflexivity|]. split; [intros; contradiction|].
      split; [intros; contradiction|]. intros _. eauto.
    + split; [reflexivity|]. split; [intros; contradiction|].
      split; [reflexivity|]. intros; contradiction.
  - inv_ok. apply dec_stable in Heq.
    split; [reflexivity|]. split; [reflexivity|].
    split; [intros; contradiction|].
    intros Ha. exfalso. apply Ha. rewrite Heq. apply difference_diag_L.
Qed.


(** *** The alert *)

(** How many times the alert was given: the blink sequences of
    [trigger_alert] on the console. *)
Definition alerts (n : Node) : nat :=
  length (filter (fun o => o = OutBlink) (console n)).

(** From [n] to [n'] the alert was given at most once, and only if the
    flag of [n] was not set; the flag is never reset. *)
Definition alert_rel (n n' : Node) : Prop :=
  if suspicion_triggered n
  then suspicion_triggered n' = true /\ alerts n' = alerts n
  else (suspicion_triggered n' = false /\ alerts n' = alerts n)
       \/ (suspicion_triggered n' = true /\ alerts n' = S (alerts n)).

Lemma alert_rel_refl (n : Node) : alert_rel n n.
Proof. unfold alert_rel. destruct (suspicion_triggered n); auto. Qed.

Lemma alert_rel_trans (a b c : Node) :
  alert_rel a b -> alert_rel b c -> alert_rel a c.
Proof.
  unfold alert_rel.
  destruct (suspicion_triggered a), (suspicion_triggered b);
    intros Hab Hbc; intuition (try congruence).
Qed.

Lemma alert_rel_same (n n' : Node) :
  suspicion_triggered n' = suspicion_triggered n ->
  alerts n' = alerts n ->
  alert_rel n n'.
Proof.
  unfold alert_rel. intros -> ->. destruct (suspicion_triggered n); auto.
Qed.

Lemma alerts_app (n : Node) (out : list Output) :
  Forall (fun o => o <> OutBlink) out ->
  alerts (set_console (console n ++ out) n) = alerts n.
Proof.
  unfold alerts. simpl. intros H. rewrite filter_app, length_app.
  replace (filter (fun o => o = OutBlink) out) with (@nil Output);
    [simpl; lia|].
  induction H as [|o out Ho _ IH]; [reflexivity|].
  rewrite filter_cons_False by exact Ho. exact IH.
Qed.

Lemma alert_rel_emit (o : Output) (n : Node) :
  o <> OutBlink -> alert_rel n (emit o n).
Proof.
  intros Ho. apply alert_rel_same; [reflexivity|].
  apply alerts_app. constructor; [exact Ho | constructor].
Qed.

Lemma alert_rel_trigger (n : Node) : alert_rel n (trigger_alert n).
Proof.
  unfold alert_rel, trigger_alert, alerts.
  destruct (suspicion_triggered n) eqn:E; [rewrite E; auto|].
  right. simpl. split; [reflexivity|].
  rewrite filter_app, length_app. simpl. lia.
Qed.

Lemma alert_rel_handle_message (msg : string) (n : Node) :
  alert_rel n (handle_message B C msg n).
Proof.
  unfold handle_message.
  destruct (decode_message B C msg) as [| |name st v e].
  - apply alert_rel_refl.
  - apply alert_rel_emit. discriminate.
  - eapply alert_rel_trans with (b := clone_check name v e n).
    + unfold clone_check. destruct (clone_check_log n !! _).
      * destruct (Qltb _ _); [|apply alert_rel_refl].
        eapply alert_rel_trans; [|apply alert_rel_trigger].
        apply alert_rel_emit. discriminate.
      * apply alert_rel_same; reflexivity.
    + destruct (store_neighbor_effect name st v e (clone_check name v e n))
        as (Hc & Hs & _).
      apply alert_rel_same; [exact Hs|]. unfold alerts. rewrite Hc.
      reflexivity.
Qed.

Lemma alert_rel_detect (n : Node) : alert_rel n (detect_code_anomaly C n).
Proof.
  unfold detect_code_anomaly.
  repeat match goal with
         | |- context [if ?b then _ else _] => destruct b
         | |- context [match ?o with Some _ => _ | None => _ end] => destruct o
         end;
    try apply alert_rel_refl.
  - eapply alert_rel_trans; [|apply alert_rel_trigger].
    eapply alert_rel_trans; apply alert_rel_emit; discriminate.
  - apply alert_rel_emit. discriminate.
  - apply alert_rel_emit. discriminate.
Qed.

Lemma alert_rel_tick (n n' : Node) :
  epoch_tick B C n = Ok n' -> alert_rel n n'.
Proof.
  apply epoch_tick_rel.
  - apply alert_rel_refl.
  - apply alert_rel_trans.
  - intros m. apply alert_rel_same; reflexivity.
  - intros m _. unfold process_messages. apply process_loop_rel.
    + apply alert_rel_trans.
    + intros v a. apply alert_rel_same; reflexivity.
    + intros msg a _ _. apply alert_rel_handle_message.
  - intros a b Hd.
    apply handle_disturbance_frame, engine_frame_fields in Hd
      as (_ & Hc & Hs & _).
    apply alert_rel_same; [exact Hs|]. unfold alerts. rewrite Hc. reflexivity.
  - intros a b Hd.
    apply converge_state_frame, engine_frame_fields in Hd
      as (_ & Hc & Hs & _).
    apply alert_rel_same; [exact Hs|]. unfold alerts. rewrite Hc. reflexivity.
  - intros m v. apply alert_rel_same; reflexivity.
  - intros a b Hb. apply broadcast_state_effect in Hb as (sent & -> & Hsent).
    apply alert_rel_same; [reflexivity|].
    exact (alerts_app (with_state _ a) sent Hsent).
  - intros m. apply alert_rel_same; reflexivity.
  - apply alert_rel_detect.
  - intros m v. apply alert_rel_same; reflexivity.
  - intros m. apply alert_rel_same; reflexivity.
Qed.

Lemma alert_rel_step (allowed : string -> Prop) (n n' : Node) :
  step B C allowed n n' -> alert_rel n n'.
Proof.
  intros [m t|m msg _|m m' H]; try (apply alert_rel_same; reflexivity).
  unfold run_iteration in H.
  destruct (_ <=? _); [|injection H as <-; apply alert_rel_refl].
  eapply alert_rel_trans; [|apply alert_rel_tick; exact H].
  apply alert_rel_same; reflexivity.
Qed.

Lemma alerts_reachable (allowed : string -> Prop) (n : Node) :
  reachable B C allowed n ->
  alerts n = if suspicion_triggered n then 1%nat else 0%nat.
Proof.
  induction 1 as [now n Hinit|n n' _ IH Hstep].
  - unfold init in Hinit. destruct (q_list C !! 0%nat); [|discriminate].
    inv_ok. reflexivity.
  - apply alert_rel_step in Hstep. unfold alert_rel in Hstep.
    destruct (suspicion_triggered n).
    + destruct Hstep as [-> ->]. exact IH.
    + destruct Hstep as [[-> ->]|[-> ->]]; [exact IH|]. rewrite IH. reflexivity.
Qed.



(** C2.  When [handle_disturbance] returns: the status is DISTURBED,
    [convergence_count] is 0, the index into [q_list] has moved one place
    round the list and [a_i] is [1/sqrt(q)] for the [q] it now points at,
    and the committed [x] is [max(1/mu, 1.2)] for the mean [mu] taken after
    the index, [a_i] and the epoch were updated (with the old [x] and the
    same neighbor table); so an [x_new] of 0.9 commits [x = 1.2]. *)
Theorem handle_disturbance_on_return (n n' : Node) :
  handle_disturbance B C n = Ok n' ->
  exists m q,
    disturbance_update B C n = Ok m
    /\ current_q_index m
       = ((current_q_index n + 1) mod length (q_list C))%nat
    /\ q_list C !! current_q_index m = Some q
    /\ a_i (state m) = (1 / math_sqrt B q)%Q
    /\ epoch (state m) = epoch (state n) + 1
    /\ x (state m) = x (state n)
    /\ neighbors (state m) = neighbors (state n)
    /\ let mu := calculate_pseudogeometric_mean B C m in
       status (state n') = DISTURBED
       /\ convergence_count (state n') = 0
       /\ current_q_index n' = current_q_index m
       /\ a_i (state n') = a_i (state m)
       /\ epoch (state n') = epoch (state m)
       /\ x (state n') = Qmax (1 / mu) (12 # 10)
       /\ ((1 / mu == 9 # 10)%Q -> x (state n') = (12 # 10)%Q).
Proof.
  intros H. apply handle_disturbance_spec in H as (m & Hm & Hmu & ->).
  destruct (disturbance_update_spec _ _ Hm) as (q & Em & Hq & Hz).
  exists m, q. split; [exact Hm|].
  split; [rewrite Em; reflexivity|].
  split; [exact Hq|].
  rewrite Em at 1 2 3 4. simpl.
  repeat (split; [reflexivity|]).
  rewrite Em at 1 2. simpl.
  repeat (split; [reflexivity|]).
  intros H9. unfold Qmax, GenericMinMax.gmax.
  rewrite H9. reflexivity.
Qed.

(** C3, amended.  [calculate_pseudogeometric_mean] returns [product **
    a_i], where the product, started at 1, multiplies [reciprocal(code)]
    over exactly the entries of the neighbor table whose region is the
    node's own and whose recorded epoch is at most 2 behind the node's
    epoch (however far ahead it is), and is [reciprocal(x)] alone when no
    entry qualifies; [reciprocal(v)] is [1/v] for [v > 1] and [v] for
    [v <= 1]. *)
Theorem pseudogeometric_mean_selection (n : Node) :
  calculate_pseudogeometric_mean B C n = mean_over B (qualifies C n) n
  /\ (forall name data,
        qualifies C n name data = true
        <-> REGION_MAP C !! name = Some (region n)
            /\ epoch (state n) - nb_epoch data <= 2)
  /\ (forall v : Q, (1 < v)%Q -> reciprocal v = (1 / v)%Q)
  /\ (forall v : Q, (v <= 1)%Q -> reciprocal v = v).
Proof.
  split; [apply calculate_pseudogeometric_mean_over|].
  split; [apply qualifies_spec|].
  split; [apply reciprocal_above | apply reciprocal_below].
Qed.


(** C10.  A malformed frame changes nothing but the console: handling
    it returns the node as it was, or with the line of the [except]
    clause printed; [self.state] with its neighbor table, the clone log
    and the alert flag are the same, and the loop goes on to the next
    frame (it ends there if the frame is the empty one). *)
Theorem malformed_message_discarded (msg : string) (rest : list string)
    (n : Node) :
  malformed msg ->
  (handle_message B C msg n = n
   \/ handle_message B C msg n = emit OutMessageError n)
  /\ state (handle_message B C msg n) = state n
  /\ clone_check_log (handle_message B C msg n) = clone_check_log n
  /\ suspicion_triggered (handle_message B C msg n) = suspicion_triggered n
  /\ (msg <> EmptyString ->
      process_loop B C (msg :: rest) n
      = process_loop B C rest (handle_message B C msg n))
  /\ (msg = EmptyString ->
      process_loop B C (msg :: rest) n = set_inbox rest n).
Proof.
  intros Hm. apply malformed_not_accepted in Hm.
  assert (H : handle_message B C msg n = n
              \/ handle_message B C msg n = emit OutMessageError n).
  { unfold handle_message. destruct Hm as [-> | ->]; auto. }
  split; [exact H|].
  repeat split.
  1-3: destruct H as [-> | ->]; reflexivity.
  - intros Hne. simpl. apply String.eqb_neq in Hne. rewrite Hne. reflexivity.
  - intros ->. reflexivity.
Qed.

(** C7, amended.  A tick entered in status STABLE starts by reading the
    radio: the rest of the tick runs on the node [process_messages]
    returns.  [process_messages] handles the frames of the queue in order
    and leaves the queue empty (no frame being the empty one); an accepted
    frame goes through the conflict check and then, if its sender is a
    registered peer, replaces the sender's entry of the neighbor table.
    A tick entered in status DISTURBED does not read the radio: the queue
    and the clone log are as before, and the neighbor table gets no
    entry. *)
Theorem stable_tick_reads_radio :
  (forall n : Node,
      status (state n) = STABLE ->
      epoch_tick B C n
      = react_to_topology B C (process_messages B C (count_epoch n))
          ≫= finish_tick B C)
  /\ (forall n : Node,
        (forall msg, msg ∈ inbox n -> msg <> EmptyString) ->
        process_messages B C n
        = set_inbox []
            (foldl (fun m msg => handle_message B C msg m) n (inbox n)))
  /\ (forall (n : Node) (msg name st : string) (v : Q) (e : Z),
        decode_message B C msg = Accepted name st v e ->
        handle_message B C msg n
        = store_neighbor name st v e (clone_check name v e n)
        /\ neighbors (state (handle_message B C msg n))
           = match peers n !! name with
             | Some _ =>
                 <[name := {| code := v; nb_status := st; nb_epoch := e;
                              last_seen := clock n |}]> (neighbors (state n))
             | None => neighbors (state n)
             end)
  /\ (forall n n' : Node,
        status (state n) = STABLE ->
        (forall msg, msg ∈ inbox n -> msg <> EmptyString) ->
        epoch_tick B C n = Ok n' ->
        inbox n' = [])
  /\ (forall n n' : Node,
        status (state n) = DISTURBED ->
        epoch_tick B C n = Ok n' ->
        inbox n' = inbox n
        /\ clone_check_log n' = clone_check_log n
        /\ neighbors (state n') ⊆ neighbors (state n)).
Proof.
  split; [apply epoch_tick_stable|].
  split; [apply process_messages_foldl|].
  split; [|split].
  - intros n msg name st v e Hd. unfold handle_message. rewrite Hd.
    split; [reflexivity|].
    destruct (store_neighbor_effect name st v e (clone_check name v e n))
      as (_ & _ & _ & ->).
    destruct (message_frame_fields _ _ (clone_check_frame name v e n))
      as (_ & _ & -> & -> & _).
    assert (Hn : neighbors (state (clone_check name v e n))
                 = neighbors (state n)); [|rewrite Hn; reflexivity].
    unfold clone_check. destruct (clone_check_log n !! _); [|reflexivity].
    destruct (Qltb _ _); [|reflexivity].
    destruct (trigger_alert_effect (emit (OutCloneConflict name e) n))
      as (_ & _ & _ & ->). reflexivity.
  - intros n n' Hs Hne H. rewrite epoch_tick_stable in H by exact Hs.
    inv_ok. apply finish_tick_effect in H as (_ & _ & _ & _ & _ & -> & _).
    apply react_to_topology_inbox in Hr as [-> _].
    rewrite process_messages_foldl by exact Hne. reflexivity.
  - intros n n' Hs H. rewrite epoch_tick_disturbed in H by exact Hs.
    inv_ok.
    apply finish_tick_effect in H as (nb & Hst & Hsub & _ & _ & -> & ->).
    apply converge_state_commit in Hr as (m & Hm & _ & -> & _).
    apply converge_update_spec in Hm as (q & -> & _).
    rewrite Hst. clear Hst.
    assert (F : forall mu m0,
               inbox (converge_commit C mu m0) = inbox m0
               /\ clone_check_log (converge_commit C mu m0) = clone_check_log m0
               /\ neighbors (state (converge_commit C mu m0))
                  = neighbors (state m0)).
    { intros mu m0. unfold converge_commit.
      destruct (stability_predicate C mu m0); simpl;
        match goal with
        | |- context [?a <=? ?b] => destruct (a <=? b)
        end; auto. }
    match type of Hsub with
    | _ ⊆ neighbors (state (converge_commit C ?mu ?m0)) =>
        destruct (F mu m0) as (-> & -> & Hn); rewrite Hn in Hsub
    end.
    simpl in *. auto.
Qed.

(** C5, amended.  A tick adds one to the epoch in line 227, and one more
    in every call of [handle_disturbance] or [converge_state] it makes:
    the epoch grows by 2 in a tick entered DISTURBED; in a tick entered
    STABLE it grows by 1 when the identities heard are those of the last
    comparison, by 2 when some only vanished, by 3 when a new one
    appeared.  So the epoch never decreases, and grows by at least 1 and
    at most 3 per tick. *)
Theorem epoch_per_tick (n n' : Node) :
  epoch_tick B C n = Ok n' ->
  let heard := process_messages B C (count_epoch n) in
  (status (state n) = DISTURBED -> epoch (state n') = epoch (state n) + 2)
  /\ (status (state n) = STABLE ->
      dom (neighbors (state heard)) = previous_neighbors (state n) ->
      epoch (state n') = epoch (state n) + 1)
  /\ (status (state n) = STABLE ->
      dom (neighbors (state heard)) ≠ previous_neighbors (state n) ->
      added heard = ∅ ->
      epoch (state n') = epoch (state n) + 2)
  /\ (status (state n) = STABLE ->
      added heard ≠ ∅ ->
      epoch (state n') = epoch (state n) + 3)
  /\ epoch (state n) + 1 <= epoch (state n') <= epoch (state n) + 3.
Proof.
  intros H heard.
  assert (Hheard : epoch (state heard) = epoch (state n) + 1
                   /\ previous_neighbors (state heard)
                      = previous_neighbors (state n)).
  { subst heard. unfold process_messages.
    destruct (message_frame_fields _ _
                (process_loop_frame (inbox (count_epoch n)) (count_epoch n)))
      as (_ & _ & _ & _ & _ & _ & _ & -> & _ & _ & ->). auto. }
  destruct Hheard as [He Hp].
  assert (Hfin : forall m, finish_tick B C m = Ok n' ->
                           epoch (state n') = epoch (state m)).
  { intros m Hm. apply finish_tick_effect in Hm as (nb & -> & _). reflexivity. }
  destruct (status (state n)) eqn:Hs.
  - rewrite epoch_tick_stable in H by exact Hs. fold heard in H. inv_ok.
    apply Hfin in H. unfold react_to_topology in Hr. inv_ok.
    destruct r0 as [m changed].
    destruct (compare_neighbors_spec _ _ _ Hr0) as (Hc & Hsame & Hgone & Hnew).
    rewrite Hp in Hc, Hsame, Hgone.
    assert (Hcase :
      (dom (neighbors (state heard)) = previous_neighbors (state n)
       /\ epoch (state n') = epoch (state n) + 1)
      \/ (dom (neighbors (state heard)) ≠ previous_neighbors (state n)
          /\ added heard = ∅ /\ epoch (state n') = epoch (state n) + 2)
      \/ (added heard ≠ ∅ /\ epoch (state n') = epoch (state n) + 3)).
    { destruct (decide (added heard = ∅)) as [Ha|Ha].
      - destruct (decide (dom (neighbors (state heard))
                          = previous_neighbors (state n))) as [Hd|Hd].
        + left. split; [exact Hd|].
          rewrite bool_decide_eq_false_2 in Hc by (intros X; exact (X Hd)).
          subst changed. inv_ok. rewrite (Hsame Hd) in H. lia.
        + right. left. split; [exact Hd|]. split; [exact Ha|].
          rewrite bool_decide_eq_true_2 in Hc by exact Hd. subst changed.
          apply handle_disturbance_epoch in Hr.
          rewrite (Hgone Hd Ha) in Hr. simpl in Hr. lia.
      - right. right. split; [exact Ha|].
        destruct (Hnew Ha) as (d & Hd & ->).
        assert (Hne : dom (neighbors (state heard))
                      ≠ previous_neighbors (state n)).
        { intros Heq. apply Ha. unfold added. rewrite Hp, Heq.
          apply difference_diag_L. }
        rewrite bool_decide_eq_true_2 in Hc by exact Hne. subst changed.
        apply handle_disturbance_epoch in Hr, Hd. simpl in Hr. lia. }
    split; [discriminate|].
    destruct Hcase as [(Hd & E)|[(Hd & Ha & E)|(Ha & E)]].
    + split; [auto|]. split; [intros; contradiction|].
      split; [|lia]. intros _ Ha. exfalso. apply Ha. unfold added.
      rewrite Hp, Hd. apply difference_diag_L.
    + split; [intros; contradiction|]. split; [auto|].
      split; [intros; contradiction|lia].
    + assert (Hne : dom (neighbors (state heard))
                    ≠ previous_neighbors (state n)).
      { intros Heq. apply Ha. unfold added. rewrite Hp, Heq.
        apply difference_diag_L. }
      split; [intros; contradiction|]. split; [intros; contradiction|].
      split; [auto|lia].
  - rewrite epoch_tick_disturbed in H by exact Hs. inv_ok.
    apply Hfin in H. apply converge_state_epoch in Hr. simpl in Hr.
    split; [intros _; lia|].
    split; [discriminate|]. split; [discriminate|].
    split; [discriminate|lia].
Qed.

(** C6, amended.  In a tick entered STABLE in which no new identity
    appeared: [check_topology_change] runs no disturbance and returns the
    node with [x], status, index, [a_i] and [convergence_count] as they
    were.  If the identities are those of the last comparison, the whole
    tick leaves these five as they were.  If some identity vanished,
    [check_topology_change] reports a change and line 231 runs
    [handle_disturbance] once: after the tick the status is DISTURBED,
    [convergence_count] is 0, the index has moved one place and [x] is
    [max(1/mu, 1.2)]. *)
Theorem vanished_neighbors (n n' : Node) :
  status (state n) = STABLE ->
  epoch_tick B C n = Ok n' ->
  added (process_messages B C (count_epoch n)) = ∅ ->
  let heard := process_messages B C (count_epoch n) in
  let vanished :=
    dom (neighbors (state heard)) ≠ previous_neighbors (state n) in
  (exists m changed,
      check_topology_change B C (count_epoch n) = Ok (m, changed)
      /\ (changed = true <-> vanished)
      /\ x (state m) = x (state n)
      /\ status (state m) = STABLE
      /\ current_q_index m = current_q_index n
      /\ a_i (state m) = a_i (state n)
      /\ convergence_count (state m) = convergence_count (state n)
      /\ (vanished ->
          exists d,
            handle_disturbance B C m = Ok d
            /\ finish_tick B C d = Ok n'
            /\ x (state n') = x (state d)))
  /\ (vanished ->
      status (state n') = DISTURBED
      /\ convergence_count (state n') = 0
      /\ current_q_index n'
         = ((current_q_index n + 1) mod length (q_list C))%nat
      /\ exists mu : Q, x (state n') = Qmax (1 / mu) (12 # 10))
  /\ (~ vanished ->
      x (state n') = x (state n)
      /\ status (state n') = STABLE
      /\ current_q_index n' = current_q_index n
      /\ a_i (state n') = a_i (state n)
      /\ convergence_count (state n') = convergence_count (state n)).
Proof.
  intros Hs H Ha heard vanished.
  destruct (message_frame_fields _ _
              (process_loop_frame (inbox (count_epoch n)) (count_epoch n)))
    as (_ & Hq & _ & _ & _ & Hx & Hst & _ & Hai & Hcc & Hp).
  change (process_loop B C (inbox (count_epoch n)) (count_epoch n))
    with heard in *.
  simpl in Hq, Hx, Hst, Hai, Hcc, Hp.
  rewrite epoch_tick_stable in H by exact Hs. fold heard in H. inv_ok.
  unfold react_to_topology in Hr. inv_ok. destruct r0 as [m changed].
  destruct (compare_neighbors_spec _ _ _ Hr0) as (Hc & Hsame & Hgone & _).
  rewrite Hp in Hc, Hsame, Hgone. fold vanished in Hc, Hgone.
  apply finish_tick_effect in H as Hfin.
  destruct Hfin as (nb & Hn' & _ & _ & Hqn' & _).
  destruct (decide vanished) as [Hv|Hv].
  - rewrite bool_decide_eq_true_2 in Hc by exact Hv. subst changed.
    specialize (Hgone Hv Ha). subst m.
    pose proof Hr as Hd.
    apply handle_disturbance_spec in Hd as (u & Hu & _ & Ed).
    apply disturbance_update_spec in Hu as (q & Eu & _).
    assert (Hxn : x (state n') = x (state r)) by (rewrite Hn'; reflexivity).
    split; [|split; [|intros; contradiction]].
    + eexists _, true. unfold check_topology_change. fold heard.
      split; [exact Hr0|]. simpl. rewrite Hx, Hst, Hq, Hai, Hcc, Hs.
      split; [tauto|]. repeat (split; [reflexivity|]).
      intros _. exists r. auto.
    + intros _. rewrite Hqn', Hn', Ed, Eu. simpl. rewrite Hq.
      repeat (split; [reflexivity|]). eexists. reflexivity.
  - apply dec_stable in Hv as Heq.
    rewrite bool_decide_eq_false_2 in Hc by (intros X; exact (X Heq)).
    subst changed. specialize (Hsame Heq). subst m. inv_ok.
    split; [|split; [intros; contradiction|]].
    + eexists _, false. unfold check_topology_change. fold heard.
      split; [exact Hr0|]. rewrite Hx, Hst, Hq, Hai, Hcc, Hs.
      split; [split; [discriminate | intros; contradiction]|].
      repeat (split; [reflexivity|]). intros; contradiction.
    + intros _. rewrite Hqn', Hn'. simpl. rewrite Hx, Hst, Hq, Hai, Hcc, Hs.
      auto.
Qed.

(** C9.  In every state a run reaches, whatever frames arrive, the alert
    has been given at most once, and exactly once if the flag
    [suspicion_triggered] is set; from a state where it has been given,
    no step gives it again; and a tick entered with the flag set gives no
    alert, whatever the two heuristics find. *)
Theorem alert_sticky :
  (forall (allowed : string -> Prop) (n : Node),
      reachable B C allowed n ->
      (alerts n <= 1)%nat
      /\ (suspicion_triggered n = true <-> alerts n = 1%nat))
  /\ (forall (allowed : string -> Prop) (n n' : Node),
        reachable B C allowed n ->
        alerts n = 1%nat ->
        step B C allowed n n' ->
        alerts n' = 1%nat)
  /\ (forall n n' : Node,
        suspicion_triggered n = true ->
        epoch_tick B C n = Ok n' ->
        alerts n' = alerts n /\ suspicion_triggered n' = true).
Proof.
  split; [|split].
  - intros allowed n Hn. apply alerts_reachable in Hn. rewrite Hn.
    destruct (suspicion_triggered n); split; try lia; split; congruence.
  - intros allowed n n' Hn H1 Hstep.
    apply alerts_reachable in Hn. apply alert_rel_step in Hstep.
    unfold alert_rel in Hstep.
    destruct (suspicion_triggered n); [|lia].
    destruct Hstep as [_ ->]. exact H1.
  - intros n n' Hs H. apply alert_rel_tick in H. unfold alert_rel in H.
    rewrite Hs in H. tauto.
Qed.

End Facts.

(** ** The claims on the demo instance *)


Lemma handle_disturbance_on_return_witness :
  handle_disturbance Demo.builtins Demo.config Demo.shaken = Ok Demo.shaken1
  /\ status (state Demo.shaken1) = DISTURBED
  /\ convergence_count (state Demo.shaken1) = 0
  /\ x (state Demo.shaken1) = (12 # 10)%Q.
Proof.
  assert (H : handle_disturbance Demo.builtins Demo.config Demo.shaken
              = Ok Demo.shaken1) by (vm_compute; reflexivity).
  split; [exact H|].
  destruct (handle_disturbance_on_return _ _ _ _ H)
    as (m & q & Hm & _ & _ & _ & _ & _ & _ & Hs & Hc & _ & _ & _ & _ & H9).
  split; [exact Hs|]. split; [exact Hc|].
  apply H9. vm_compute in Hm. injection Hm as <-. vm_compute. reflexivity.
Defined.

(** C3 as stated fails: a neighbor of the region 99 epochs ahead is not
    within 2 of the node's epoch, and its code is the mean all the same. *)
Lemma pseudogeometric_mean_not_within_two :
  within_two Demo.config Demo.behind "B" (Demo.neighbor (1 # 4) 100) = false
  /\ neighbors (state Demo.behind) !! "B" = Some (Demo.neighbor (1 # 4) 100)
  /\ calculate_pseudogeometric_mean Demo.builtins Demo.config Demo.behind
     = (1 # 4)%Q
  /\ mean_over Demo.builtins (within_two Demo.config Demo.behind) Demo.behind
     = (1 # 2)%Q.
Proof. by_evaluation. Qed.


Lemma malformed_message_discarded_witness :
  malformed Demo.builtins Demo.config Demo.frame_short
  /\ handle_message Demo.builtins Demo.config Demo.frame_short Demo.heard
     = Demo.heard
  /\ neighbors (state (handle_message Demo.builtins Demo.config
                         Demo.frame_short Demo.heard))
     = neighbors (state Demo.heard).
Proof.
  assert (Hm : malformed Demo.builtins Demo.config Demo.frame_short)
    by (left; vm_compute; lia).
  split; [exact Hm|].
  destruct (malformed_message_discarded Demo.builtins Demo.config
              Demo.frame_short [] Demo.heard Hm) as ([H|H] & Hs & _).
  - split; [exact H|]. rewrite Hs. reflexivity.
  - exfalso. vm_compute in H. discriminate H.
Defined.

Lemma started_reachable (allowed : string -> Prop) :
  reachable Demo.builtins Demo.config allowed Demo.started.
Proof. apply (reach_init _ _ _ 0). vm_compute. reflexivity. Qed.

Lemma played_reachable (acts : list Action) (n : Node) :
  play Demo.builtins Demo.config acts Demo.started = Ok n ->
  reachable Demo.builtins Demo.config (fun _ => True) n.
Proof.
  apply play_reachable; [apply started_reachable|].
  apply Forall_forall. auto.
Qed.

Lemma disturbed_reachable :
  reachable Demo.builtins Demo.config (fun _ => True) Demo.disturbed.
Proof.
  apply (played_reachable Demo.to_disturbed). vm_compute. reflexivity.
Qed.

Lemma calm_reachable :
  reachable Demo.builtins Demo.config (fun _ => True) Demo.calm.
Proof.
  apply (played_reachable Demo.to_calm). vm_compute. reflexivity.
Qed.

(** C7 as stated fails: the node, disturbed by its first tick, does not
    read the frame of its peer [B] in the next tick; the frame stays in
    the queue, unchecked and not in the neighbor table. *)
Lemma disturbed_tick_leaves_queue :
  reachable Demo.builtins Demo.config (fun _ => True) Demo.disturbed
  /\ status (state Demo.disturbed) = DISTURBED
  /\ inbox Demo.disturbed = [Demo.frame_B_100]
  /\ decode_message Demo.builtins Demo.config Demo.frame_B_100
     = Accepted "B" "STABLE" 1 5
  /\ peers Demo.disturbed !! "B" = Some "bb"%string
  /\ epoch_tick Demo.builtins Demo.config Demo.disturbed = Ok Demo.deaf
  /\ inbox Demo.deaf = [Demo.frame_B_100]
  /\ neighbors (state Demo.deaf) !! "B" = None
  /\ clone_check_log Demo.deaf !! ("B"%string, 5) = None.
Proof.
  split; [apply disturbed_reachable | by_evaluation].
Qed.

Lemma stable_tick_reads_radio_witness :
  (status (state Demo.listening) = STABLE
   /\ epoch_tick Demo.builtins Demo.config Demo.listening = Ok Demo.listened
   /\ inbox Demo.listened = [])
  /\ (status (state Demo.disturbed) = DISTURBED
      /\ epoch_tick Demo.builtins Demo.config Demo.disturbed = Ok Demo.deaf
      /\ inbox Demo.deaf = inbox Demo.disturbed).
Proof.
  destruct (stable_tick_reads_radio Demo.builtins Demo.config)
    as (_ & _ & _ & Hstable & Hdisturbed).
  assert (H1 : epoch_tick Demo.builtins Demo.config Demo.listening
               = Ok Demo.listened) by (vm_compute; reflexivity).
  assert (H2 : epoch_tick Demo.builtins Demo.config Demo.disturbed
               = Ok Demo.deaf) by (vm_compute; reflexivity).
  split.
  - split; [vm_compute; reflexivity|]. split; [exact H1|].
    apply (Hstable Demo.listening Demo.listened);
      [vm_compute; reflexivity | | exact H1].
    intros msg Hel. vm_compute in Hel.
    apply elem_of_cons in Hel as [-> | Hel]; [discriminate|].
    apply elem_of_cons in Hel as [-> | Hel]; [discriminate|].
    inversion Hel.
  - assert (Hs : status (state Demo.disturbed) = DISTURBED)
      by (vm_compute; reflexivity).
    split; [exact Hs|]. split; [exact H2|].
    exact (proj1 (Hdisturbed Demo.disturbed Demo.deaf Hs H2)).
Defined.

(** C5 as stated fails: a tick entered DISTURBED takes the epoch from 3
    to 5. *)
Lemma disturbed_tick_counts_twice :
  reachable Demo.builtins Demo.config (fun _ => True) Demo.disturbed
  /\ status (state Demo.disturbed) = DISTURBED
  /\ epoch_tick Demo.builtins Demo.config Demo.disturbed = Ok Demo.deaf
  /\ epoch (state Demo.disturbed) = 3
  /\ epoch (state Demo.deaf) = 5.
Proof. split; [apply disturbed_reachable | by_evaluation]. Qed.

Lemma epoch_per_tick_witness :
  epoch_tick Demo.builtins Demo.config Demo.listening = Ok Demo.listened
  /\ epoch (state Demo.listened) = epoch (state Demo.listening) + 3.
Proof.
  assert (H : epoch_tick Demo.builtins Demo.config Demo.listening
              = Ok Demo.listened) by (vm_compute; reflexivity).
  split; [exact H|].
  destruct (epoch_per_tick Demo.builtins Demo.config _ _ H)
    as (_ & _ & _ & Hnew & _).
  apply Hnew; [vm_compute; reflexivity|].
  intros Hempty. vm_compute in Hempty. discriminate Hempty.
Defined.

(** C6 as stated fails: in the tick after the entry of [C] was evicted,
    the only change is that [C] vanished, and the stable node with
    [x = 0.8] and three converged epochs is disturbed to [x = 1.25]. *)
Lemma vanished_neighbor_disturbs :
  reachable Demo.builtins Demo.config (fun _ => True) Demo.calm
  /\ status (state Demo.calm) = STABLE
  /\ previous_neighbors (state Demo.calm) = {[ "C"%string ]}
  /\ neighbors (state Demo.calm) = ∅
  /\ inbox Demo.calm = []
  /\ epoch_tick Demo.builtins Demo.config Demo.calm = Ok Demo.upset
  /\ x (state Demo.calm) = (4 # 5)%Q
  /\ x (state Demo.upset) = (5 # 4)%Q
  /\ status (state Demo.upset) = DISTURBED
  /\ convergence_count (state Demo.calm) = 3
  /\ convergence_count (state Demo.upset) = 0.
Proof. split; [apply calm_reachable | by_evaluation]. Qed.

Lemma vanished_neighbors_witness :
  (epoch_tick Demo.builtins Demo.config Demo.calm = Ok Demo.upset
   /\ status (state Demo.upset) = DISTURBED
   /\ convergence_count (state Demo.upset) = 0)
  /\ (epoch_tick Demo.builtins Demo.config Demo.settled = Ok Demo.settled1
      /\ x (state Demo.settled1) = x (state Demo.settled)
      /\ status (state Demo.settled1) = STABLE).
Proof.
  assert (H1 : epoch_tick Demo.builtins Demo.config Demo.calm = Ok Demo.upset)
    by (vm_compute; reflexivity).
  assert (H2 : epoch_tick Demo.builtins Demo.config Demo.settled
               = Ok Demo.settled1) by (vm_compute; reflexivity).
  assert (S1 : status (state Demo.calm) = STABLE) by (vm_compute; reflexivity).
  assert (S2 : status (state Demo.settled) = STABLE)
    by (vm_compute; reflexivity).
  assert (A1 : added (process_messages Demo.builtins Demo.config
                        (count_epoch Demo.calm)) = ∅)
    by (vm_compute; reflexivity).
  assert (A2 : added (process_messages Demo.builtins Demo.config
                        (count_epoch Demo.settled)) = ∅)
    by (vm_compute; reflexivity).
  split.
  - split; [exact H1|].
    destruct (vanished_neighbors Demo.builtins Demo.config _ _ S1 H1 A1)
      as (_ & Hgone & _).
    destruct Hgone as (Hs & Hc & _); [|auto].
    intros Heq. vm_compute in Heq. discriminate Heq.
  - split; [exact H2|].
    destruct (vanished_neighbors Demo.builtins Demo.config _ _ S2 H2 A2)
      as (_ & _ & Hsame).
    destruct Hsame as (Hx & Hs & _); [|auto].
    intros Hne. apply Hne. vm_compute. reflexivity.
Defined.

Lemma alarmed_reachable :
  reachable Demo.builtins Demo.config (fun _ => True) Demo.alarmed.
Proof.
  apply (played_reachable Demo.to_alarmed). vm_compute. reflexivity.
Qed.


Lemma alert_sticky_witness :
  status (state Demo.alarmed) = STABLE
  /\ alerts Demo.alarmed = 1%nat
  /\ Demo.conflicts Demo.alarmed = 1%nat
  /\ run_iteration Demo.builtins Demo.config Demo.alarmed = Ok Demo.alarmed1
  /\ Demo.conflicts Demo.alarmed1 = 2%nat
  /\ alerts Demo.alarmed1 = 1%nat.
Proof.
  assert (H : run_iteration Demo.builtins Demo.config Demo.alarmed
              = Ok Demo.alarmed1) by (vm_compute; reflexivity).
  assert (A : alerts Demo.alarmed = 1%nat) by (vm_compute; reflexivity).
  split; [vm_compute; reflexivity|]. split; [exact A|].
  split; [vm_compute; reflexivity|]. split; [exact H|].
  split; [vm_compute; reflexivity|].
  destruct (alert_sticky Demo.builtins Demo.config) as (_ & Hstep & _).
  exact (Hstep (fun _ => True) Demo.alarmed Demo.alarmed1 alarmed_reachable A
           (step_turn _ _ _ _ _ H)).
Defined.

(** * The rest of the node

    Properties of the functions the claims do not reach, and of the run as
    a whole. *)

Section Coverage.

Context (B : Builtins) (C : Config).

(** [k] calls of [next_q] in a row. *)
Fixpoint rotate (k : nat) (n : Node) : result Node :=
  match k with
  | O => Ok n
  | S k => '(n, _) ← next_q B C n; rotate k n
  end.

(** Every [q] of the list has a square root to divide by. *)
Definition roots_defined : Prop :=
  Forall (fun q => (0 <= q)%Q /\ ~ (math_sqrt B q == 0)%Q) (q_list C).

Lemma inv_sqrt_returns (q : Q) :
  (0 <= q)%Q -> ~ (math_sqrt B q == 0)%Q ->
  inv_sqrt B q = Ok (1 / math_sqrt B q)%Q.
Proof.
  intros Hq Hr. unfold inv_sqrt.
  apply Qltb_ge in Hq. apply Qzerob_false in Hr. rewrite Hq, Hr. reflexivity.
Qed.

Lemma next_q_returns (n : Node) :
  roots_defined -> q_list C <> [] ->
  exists q,
    q_list C !! ((current_q_index n + 1) mod length (q_list C))%nat = Some q
    /\ next_q B C n
       = Ok (set_current_q_index
               ((current_q_index n + 1) mod length (q_list C))%nat n,
             (q, (1 / math_sqrt B q)%Q)).
Proof.
  intros Hroots Hne. unfold next_q.
  destruct (length (q_list C)) as [|len] eqn:Hlen.
  { destruct (q_list C); [contradiction | discriminate]. }
  assert (Hlt : ((current_q_index n + 1) mod S len < length (q_list C))%nat).
  { rewrite Hlen. apply Nat.mod_upper_bound. lia. }
  apply lookup_lt_is_Some_2 in Hlt as [q Hq].
  exists q. split; [exact Hq|]. simpl in Hq |- *. rewrite Hq.
  unfold roots_defined in Hroots. rewrite Forall_lookup in Hroots.
  destruct (Hroots _ _ Hq) as [H0 Hr].
  rewrite (inv_sqrt_returns q H0 Hr). reflexivity.
Qed.

Lemma set_current_q_index_twice (i j : nat) (n : Node) :
  set_current_q_index i (set_current_q_index j n) = set_current_q_index i n.
Proof. reflexivity. Qed.

Lemma set_current_q_index_same (n : Node) :
  set_current_q_index (current_q_index n) n = n.
Proof. destruct n; reflexivity. Qed.

(** X1.  With a square root for every [q] of a non-empty [q_list], [k]
    calls of [next_q] in a row return and move the index [k] places round
    the list, changing nothing else; so [len(q_list)] calls bring an index
    that is in range back to where it was. *)
Theorem next_q_cycles (n : Node) (k : nat) :
  roots_defined ->
  q_list C <> [] ->
  rotate (S k) n
  = Ok (set_current_q_index
          ((current_q_index n + S k) mod length (q_list C))%nat n)
  /\ ((current_q_index n < length (q_list C))%nat ->
      rotate (length (q_list C)) n = Ok n).
Proof.
  intros Hroots Hne.
  assert (Hlen : (0 < length (q_list C))%nat).
  { destruct (q_list C); [contradiction | simpl; lia]. }
  assert (Hk : forall k m,
             rotate (S k) m
             = Ok (set_current_q_index
                     ((current_q_index m + S k) mod length (q_list C))%nat m)).
  { clear k n. induction k as [|k IH]; intros m.
    - simpl. destruct (next_q_returns m Hroots Hne) as (q & _ & ->).
      simpl. reflexivity.
    - change (rotate (S (S k)) m)
        with ('(m', _) ← next_q B C m; rotate (S k) m').
      destruct (next_q_returns m Hroots Hne) as (q & _ & ->).
      unfold mbind, result_bind. cbv beta iota. rewrite IH.
      rewrite set_current_q_index_twice. simpl current_q_index.
      rewrite Nat.Div0.add_mod_idemp_l.
      replace (current_q_index m + 1 + S k)%nat
        with (current_q_index m + S (S k))%nat by lia.
      reflexivity. }
  split; [apply Hk|].
  intros Hi. destruct (length (q_list C)) as [|len] eqn:E; [lia|].
  rewrite Hk.
  replace (current_q_index n + S len)%nat
    with (current_q_index n + 1 * S len)%nat by lia.
  rewrite Nat.Div0.mod_add, Nat.mod_small by lia.
  rewrite set_current_q_index_same. reflexivity.
Qed.

(** ** Invariants of a run *)

Lemma reachable_invariant (allowed : string -> Prop) (P : Node -> Prop) :
  (forall now n, init B C now = Ok n -> P n) ->
  (forall n t, P n -> P (set_clock t n)) ->
  (forall n msg, allowed msg -> P n -> P (set_inbox (inbox n ++ [msg]) n)) ->
  (forall n t, P n -> P (set_loop_last_epoch t n)) ->
  (forall n n', P n -> epoch_tick B C n = Ok n' -> P n') ->
  forall n, reachable B C allowed n -> P n.
Proof.
  intros Hinit Htime Hframe Hlast Htick n Hn.
  induction Hn as [now n Hi|n n' _ IH Hstep]; [eapply Hinit; exact Hi|].
  destruct Hstep as [m t|m msg Hmsg|m m' H].
  - apply Htime. exact IH.
  - apply Hframe; assumption.
  - unfold run_iteration in H.
    destruct (_ <=? _); [|injection H as <-; exact IH].
    eapply Htick; [|exact H]. apply Hlast. exact IH.
Qed.

(** Lines 229-233: what a tick does between counting the epoch and
    broadcasting. *)
Definition consensus_step (n : Node) : result Node :=
  match status (state n) with
  | STABLE => react_to_topology B C (process_messages B C n)
  | DISTURBED => converge_state B C n
  end.

Lemma epoch_tick_steps (n : Node) :
  epoch_tick B C n = consensus_step (count_epoch n) ≫= finish_tick B C.
Proof.
  unfold consensus_step. destruct (status (state n)) eqn:Hs.
  - rewrite (epoch_tick_stable B C n Hs). simpl. rewrite Hs. reflexivity.
  - rewrite (epoch_tick_disturbed B C n Hs). simpl. rewrite Hs. reflexivity.
Qed.

(** What no part of a tick changes but its end: the attributes set by
    [__init__] and the history of codes. *)
Definition fixed_frame (n n' : Node) : Prop :=
  node_name n' = node_name n
  /\ region n' = region n
  /\ peers n' = peers n
  /\ max_history n' = max_history n
  /\ code_sequence n' = code_sequence n
  /\ clock n' = clock n
  /\ message_counter (state n') = message_counter (state n).

Lemma fixed_frame_refl (n : Node) : fixed_frame n n.
Proof. unfold fixed_frame. auto 10. Qed.

Lemma fixed_frame_trans (a b c : Node) :
  fixed_frame a b -> fixed_frame b c -> fixed_frame a c.
Proof. unfold fixed_frame. intuition congruence. Qed.

Lemma engine_frame_fixed (n n' : Node) :
  engine_frame n n' ->
  message_counter (state n') = message_counter (state n) ->
  fixed_frame n n'.
Proof. intros H Hm. unfold fixed_frame. rewrite H. simpl. auto 10. Qed.

Lemma message_frame_fixed (n n' : Node) :
  message_frame n n' -> fixed_frame n n'.
Proof. intros H. unfold fixed_frame. rewrite H. simpl. auto 10. Qed.

Lemma handle_disturbance_fixed (n n' : Node) :
  handle_disturbance B C n = Ok n' -> fixed_frame n n'.
Proof.
  intros H. apply engine_frame_fixed.
  - eapply handle_disturbance_frame. exact H.
  - apply handle_disturbance_spec in H as (m & Hm & _ & ->).
    apply disturbance_update_spec in Hm as (q & -> & _). reflexivity.
Qed.

Lemma converge_state_fixed (n n' : Node) :
  converge_state B C n = Ok n' -> fixed_frame n n'.
Proof.
  intros H. apply engine_frame_fixed.
  - eapply converge_state_frame. exact H.
  - apply converge_state_commit in H as (m & Hm & _ & -> & _).
    apply converge_update_spec in Hm as (q & -> & _).
    unfold converge_commit.
    destruct (stability_predicate _ _ _); simpl;
      match goal with
      | |- context [?a <=? ?b] => destruct (a <=? b)
      end; reflexivity.
Qed.

Lemma process_messages_fixed (n : Node) :
  fixed_frame n (process_messages B C n).
Proof.
  pose proof (process_loop_frame B C (inbox n) n) as F.
  apply message_frame_fixed in F. exact F.
Qed.

Lemma compare_neighbors_fixed (n n' : Node) (changed : bool) :
  compare_neighbors B C n = Ok (n', changed) -> fixed_frame n n'.
Proof.
  unfold compare_neighbors. intros H.
  destruct (bool_decide _); inv_ok; [|apply fixed_frame_refl].
  destruct (bool_decide _); inv_ok.
  - eapply fixed_frame_trans; [apply handle_disturbance_fixed; exact Hr|].
    unfold fixed_frame. simpl. auto 10.
  - unfold fixed_frame. simpl. auto 10.
Qed.

Lemma consensus_step_fixed (n n' : Node) :
  consensus_step n = Ok n' -> fixed_frame n n'.
Proof.
  unfold consensus_step, react_to_topology. intros H.
  destruct (status (state n)); [|apply converge_state_fixed; exact H].
  inv_ok. destruct r as [m changed].
  eapply fixed_frame_trans; [apply process_messages_fixed|].
  eapply fixed_frame_trans; [eapply compare_neighbors_fixed; exact Hr|].
  destruct changed; inv_ok;
    [apply handle_disturbance_fixed; exact H | apply fixed_frame_refl].
Qed.

Definition is_send (o : Output) : Prop :=
  match o with
  | OutSend _ _ => True
  | _ => False
  end.

#[local] Instance is_send_dec (o : Output) : Decision (is_send o).
Proof. destruct o; simpl; apply _. Defined.

(** The frames a node has sent, oldest first. *)
Definition sent (n : Node) : list Output := filter is_send (console n).

Lemma sent_app (n : Node) (out : list Output) :
  Forall (fun o => ~ is_send o) out ->
  sent (set_console (console n ++ out) n) = sent n.
Proof.
  unfold sent. simpl. intros H. rewrite filter_app.
  replace (filter is_send out) with (@nil Output); [apply app_nil_r|].
  induction H as [|o out Ho _ IH]; [reflexivity|].
  rewrite filter_cons_False by exact Ho. exact IH.
Qed.

Lemma trigger_alert_sent (n : Node) : sent (trigger_alert n) = sent n.
Proof.
  unfold trigger_alert. destruct (suspicion_triggered n); [reflexivity|].
  apply (sent_app (set_suspicion_triggered true n) [OutBlink]).
  repeat constructor. auto.
Qed.

Lemma emit_sent (o : Output) (n : Node) :
  ~ is_send o -> sent (emit o n) = sent n.
Proof. intros Ho. apply sent_app. repeat constructor. exact Ho. Qed.

Lemma detect_code_anomaly_sent (n : Node) :
  sent (detect_code_anomaly C n) = sent n.
Proof.
  unfold detect_code_anomaly.
  repeat match goal with
         | |- context [if ?b then _ else _] => destruct b
         | |- context [match ?o with Some _ => _ | None => _ end] => destruct o
         end;
    try reflexivity;
    rewrite ?trigger_alert_sent, ?emit_sent by (simpl; auto); reflexivity.
Qed.

Lemma filter_sends {A} (f : A -> string) (w : Wire) (l : list A) :
  filter is_send ((fun a => OutSend (f a) w) <$> l)
  = (fun a => OutSend (f a) w) <$> l.
Proof.
  induction l as [|a l IH]; [reflexivity|].
  simpl. rewrite filter_cons_True by exact I. f_equal. exact IH.
Qed.

(** The end of a tick, field by field. *)
Lemma finish_tick_fields (n n' : Node) :
  finish_tick B C n = Ok n' ->
  node_name n' = node_name n
  /\ region n' = region n
  /\ peers n' = peers n
  /\ max_history n' = max_history n
  /\ clock n' = clock n
  /\ code_sequence n' = code_sequence (update_code_sequence n)
  /\ led n' = bool_decide (status (state n) = STABLE)
  /\ exists q,
       q_list C !! current_q_index n = Some q
       /\ sent n'
          = sent n
            ++ ((fun kv =>
                   OutSend kv.2
                     {| w_network := NETWORK_ID C; w_name := node_name n;
                        w_status := status (state n); w_x := x (state n);
                        w_p := p C; w_q := q; w_epoch := epoch (state n);
                        w_counter := message_counter (state n) + 1 |})
                  <$> map_to_list (peers n)).
Proof.
  unfold finish_tick, broadcast_state. simpl.
  destruct (q_list C !! current_q_index n) as [q|] eqn:Hq; [|discriminate].
  simpl. intros H. injection H as <-.
  set (b := set_console _ _).
  set (u := update_code_sequence b).
  destruct (detect_code_anomaly_frame C u) as (F & _ & Hst).
  pose proof (detect_code_anomaly_sent u) as Hsent.
  apply message_frame_fixed in F as (F1 & F2 & F3 & F4 & F5 & F6 & _).
  assert (Hs : sent (detect_code_anomaly C u)
               = sent n
                 ++ ((fun kv =>
                        OutSend kv.2
                          {| w_network := NETWORK_ID C; w_name := node_name n;
                             w_status := status (state n); w_x := x (state n);
                             w_p := p C; w_q := q; w_epoch := epoch (state n);
                             w_counter := message_counter (state n) + 1 |})
                       <$> map_to_list (peers n))).
  { rewrite Hsent. subst u b. unfold sent. simpl.
    rewrite filter_app. f_equal. apply filter_sends. }
  destruct (_ =? _); simpl; rewrite F1, F2, F3, F4, F5, F6, Hst;
    (repeat (split; [reflexivity|])); exists q; (split; [reflexivity|]);
    exact Hs.
Qed.

Lemma epoch_tick_parts (n n' : Node) :
  epoch_tick B C n = Ok n' ->
  exists r,
    consensus_step (count_epoch n) = Ok r
    /\ finish_tick B C r = Ok n'
    /\ fixed_frame n r
    /\ x (state n') = x (state r)
    /\ status (state n') = status (state r)
    /\ epoch (state n') = epoch (state r)
    /\ current_q_index n' = current_q_index r
    /\ message_counter (state n') = message_counter (state n) + 1.
Proof.
  rewrite epoch_tick_steps. intros H. inv_ok. exists r.
  pose proof (consensus_step_fixed _ _ Hr) as F.
  assert (F' : fixed_frame n r).
  { eapply fixed_frame_trans; [|exact F]. unfold fixed_frame. simpl. auto 10. }
  destruct F' as (_ & _ & _ & _ & _ & _ & Hmc).
  pose proof (finish_tick_effect _ _ _ _ H) as (nb & Hst & _ & _ & Hq & _).
  split; [exact Hr|]. split; [exact H|].
  split; [eapply fixed_frame_trans; [|exact F];
          unfold fixed_frame; simpl; auto 10|].
  rewrite Hst, Hq. simpl. rewrite Hmc. auto 10.
Qed.

(** X2.  Every tick appends the node's [x], as the tick leaves it, to
    [code_sequence], dropping the oldest entry first when the history is
    full; in every state a run reaches the history holds at most 20
    entries. *)
Theorem history_window :
  (forall n n' : Node,
      epoch_tick B C n = Ok n' ->
      code_sequence n'
      = (if (max_history n <=? length (code_sequence n))%nat
         then tail (code_sequence n) else code_sequence n)
          ++ [x (state n')])
  /\ (forall (allowed : string -> Prop) (n : Node),
        reachable B C allowed n ->
        max_history n = 20%nat /\ (length (code_sequence n) <= 20)%nat).
Proof.
  assert (Htick : forall n n' : Node,
             epoch_tick B C n = Ok n' ->
             code_sequence n'
             = (if (max_history n <=? length (code_sequence n))%nat
                then tail (code_sequence n) else code_sequence n)
                 ++ [x (state n')]
             /\ max_history n' = max_history n).
  { intros n n' H.
    apply epoch_tick_parts in H
      as (r & _ & Hf & (_ & _ & _ & Hm & Hc & _) & Hx & _).
    apply finish_tick_fields in Hf as (_ & _ & _ & Hm' & _ & Hc' & _).
    rewrite Hc', Hm', Hx. unfold update_code_sequence. simpl.
    rewrite Hm, Hc. auto. }
  split; [intros n n' H; apply Htick; exact H|].
  intros allowed. apply reachable_invariant; try (intros; assumption).
  - intros now n Hi. unfold init in Hi.
    destruct (q_list C !! 0%nat); [|discriminate]. inv_ok. simpl. lia.
  - intros n n' [Hm Hl] H. apply Htick in H as [Hc Hm'].
    rewrite Hm in Hc. rewrite Hm', Hc, length_app. clear Hc.
    split; [exact Hm|]. change (length [x (state n')]) with 1%nat.
    destruct (Nat.leb_spec 20 (length (code_sequence n))) as [Hfull|Hroom];
      [|lia].
    destruct (code_sequence n); simpl in *; lia.
Qed.

Lemma handle_message_sent (msg : string) (n : Node) :
  sent (handle_message B C msg n) = sent n.
Proof.
  unfold handle_message.
  destruct (decode_message B C msg) as [| |name st v e]; [reflexivity| |].
  - apply emit_sent. simpl. auto.
  - unfold sent.
    destruct (store_neighbor_effect name st v e (clone_check name v e n))
      as (-> & _). fold (sent (clone_check name v e n)).
    unfold clone_check. destruct (clone_check_log n !! _); [|reflexivity].
    destruct (Qltb _ _); [|reflexivity].
    rewrite trigger_alert_sent. apply emit_sent. simpl. auto.
Qed.

Lemma process_messages_sent (n : Node) :
  sent (process_messages B C n) = sent n.
Proof.
  unfold process_messages.
  apply (process_loop_rel B C (fun a b => sent b = sent a)).
  - intros a b c Hab Hbc. congruence.
  - intros v m. reflexivity.
  - intros msg m _ _. apply handle_message_sent.
Qed.

Lemma engine_frame_sent (n n' : Node) : engine_frame n n' -> sent n' = sent n.
Proof. intros H. unfold sent. rewrite H. reflexivity. Qed.

Lemma consensus_step_sent (n n' : Node) :
  consensus_step n = Ok n' -> sent n' = sent n.
Proof.
  unfold consensus_step, react_to_topology, compare_neighbors. intros H.
  destruct (status (state n)).
  - inv_ok. destruct r as [m changed].
    rewrite <- (process_messages_sent n).
    assert (Hm : sent m = sent (process_messages B C n)).
    { destruct (bool_decide _); inv_ok; [|reflexivity].
      destruct (bool_decide _); inv_ok; [|reflexivity].
      apply handle_disturbance_frame, engine_frame_sent in Hr0. exact Hr0. }
    rewrite <- Hm. destruct changed; inv_ok; [|reflexivity].
    apply handle_disturbance_frame, engine_frame_sent in H. exact H.
  - apply converge_state_frame, engine_frame_sent in H. exact H.
Qed.

(** X3.  Every tick broadcasts once: [message_counter] grows by exactly
    1, and one frame goes to each registered peer, carrying the node's
    name and the status, [x], epoch and counter the tick leaves, with the
    [q] the index points at.  Nothing else of a tick sends a frame. *)
Theorem one_broadcast_per_tick (n n' : Node) :
  epoch_tick B C n = Ok n' ->
  message_counter (state n') = message_counter (state n) + 1
  /\ exists q,
       q_list C !! current_q_index n' = Some q
       /\ sent n'
          = sent n
            ++ ((fun kv =>
                   OutSend kv.2
                     {| w_network := NETWORK_ID C; w_name := node_name n;
                        w_status := status (state n'); w_x := x (state n');
                        w_p := p C; w_q := q; w_epoch := epoch (state n');
                        w_counter := message_counter (state n') |})
                  <$> map_to_list (peers n))
       /\ length (sent n') = (length (sent n) + size (peers n))%nat.
Proof.
  intros H.
  apply epoch_tick_parts in H
    as (r & Hr & Hf & (Hn & _ & Hp & _) & Hx & Hs & He & Hq & Hmc).
  split; [exact Hmc|].
  apply consensus_step_sent in Hr. simpl in Hr.
  assert (Hcount : message_counter (state r) = message_counter (state n)).
  { apply finish_tick_effect in Hf as (nb & Hst & _).
    rewrite Hst in Hmc. simpl in Hmc. lia. }
  apply finish_tick_fields in Hf as (_ & _ & _ & _ & _ & _ & _ & q & Hl & Hsent).
  exists q. rewrite Hq, Hx, Hs, He, Hmc.
  split; [exact Hl|].
  rewrite Hsent, Hr, Hn, Hp, Hcount, length_app, length_fmap.
  rewrite length_map_to_list. auto.
Qed.

(** X4.  When a tick is over the LED shows the status, on for STABLE and
    off for DISTURBED, whether or not the alert blinked during the
    tick. *)
Theorem led_shows_status (n n' : Node) :
  epoch_tick B C n = Ok n' ->
  led n' = true <-> status (state n') = STABLE.
Proof.
  intros H. apply epoch_tick_parts in H as (r & _ & Hf & _ & _ & -> & _).
  apply finish_tick_fields in Hf as (_ & _ & _ & _ & _ & _ & -> & _).
  apply bool_decide_eq_true.
Qed.


(** ** Where a tick can raise *)










(** ** The neighbor table *)

Lemma clone_check_state (name : string) (v : Q) (e : Z) (n : Node) :
  state (clone_check name v e n) = state n.
Proof.
  unfold clone_check. destruct (clone_check_log n !! _); [|reflexivity].
  destruct (Qltb _ _); [|reflexivity].
  destruct (trigger_alert_effect (emit (OutCloneConflict name e) n))
    as (_ & _ & _ & ->). reflexivity.
Qed.

Lemma handle_message_neighbors (msg : string) (n : Node) :
  neighbors (state (handle_message B C msg n))
  = match decode_message B C msg with
    | Accepted name st v e =>
        match peers n !! name with
        | Some _ =>
            <[name := {| code := v; nb_status := st; nb_epoch := e;
                         last_seen := clock n |}]> (neighbors (state n))
        | None => neighbors (state n)
        end
    | _ => neighbors (state n)
    end.
Proof.
  unfold handle_message.
  destruct (decode_message B C msg) as [| |name st v e]; try reflexivity.
  destruct (store_neighbor_effect name st v e (clone_check name v e n))
    as (_ & _ & _ & ->).
  destruct (message_frame_fields _ _ (clone_check_frame name v e n))
    as (_ & _ & -> & -> & _).
  rewrite clone_check_state. reflexivity.
Qed.

Section TableEntries.

Context (Q : string -> NeighborRecord -> Prop).

(** The entries of the neighbor table of [n] satisfy [Q]. *)
Definition table_all (n : Node) : Prop :=
  forall name d, neighbors (state n) !! name = Some d -> Q name d.

Lemma engine_table (n n' : Node) :
  neighbors (state n') = neighbors (state n) -> table_all n -> table_all n'.
Proof. unfold table_all. intros ->. auto. Qed.

Lemma handle_disturbance_neighbors (n n' : Node) :
  handle_disturbance B C n = Ok n' ->
  neighbors (state n') = neighbors (state n).
Proof.
  intros H. apply handle_disturbance_spec in H as (m & Hm & _ & ->).
  apply disturbance_update_spec in Hm as (q & -> & _). reflexivity.
Qed.

Lemma converge_state_neighbors (n n' : Node) :
  converge_state B C n = Ok n' ->
  neighbors (state n') = neighbors (state n).
Proof.
  intros H. apply converge_state_commit in H as (m & Hm & _ & -> & _).
  apply converge_update_spec in Hm as (q & -> & _).
  unfold converge_commit.
  destruct (stability_predicate _ _ _); simpl;
    match goal with
    | |- context [?a <=? ?b] => destruct (a <=? b)
    end; reflexivity.
Qed.

Lemma table_all_tick (n n' : Node) :
  table_all n ->
  (forall msg name st v e,
      msg ∈ inbox n ->
      decode_message B C msg = Accepted name st v e ->
      is_Some (peers n !! name) ->
      Q name {| code := v; nb_status := st; nb_epoch := e;
                last_seen := clock n |}) ->
  epoch_tick B C n = Ok n' ->
  table_all n'.
Proof.
  intros Htab Hframes H. revert H Htab.
  set (same := fun a : Node => peers a = peers n /\ clock a = clock n).
  enough (Hrel : epoch_tick B C n = Ok n' ->
                 same n -> same n' /\ (table_all n -> table_all n')).
  { intros H Htab. apply Hrel; [exact H | split; reflexivity | exact Htab]. }
  apply (epoch_tick_rel B C
           (fun a b => same a -> same b /\ (table_all a -> table_all b))).
  - auto.
  - intros a b c Hab Hbc Ha. destruct (Hab Ha) as [Hb Tab].
    destruct (Hbc Hb) as [Hc Tbc]. auto.
  - intros m Hm. split; [exact Hm | apply engine_table; reflexivity].
  - intros m Hin. unfold process_messages.
    apply (process_loop_rel B C
             (fun a b => same a -> same b /\ (table_all a -> table_all b))).
    + intros a b c Hab Hbc Ha. destruct (Hab Ha) as [Hb Tab].
      destruct (Hbc Hb) as [Hc Tbc]. auto.
    + intros v a Ha. split; [exact Ha | apply engine_table; reflexivity].
    + intros msg a Hel _ [Hp Hc].
      destruct (message_frame_fields _ _ (handle_message_frame B C msg a))
        as (_ & _ & Hp' & Hc' & _).
      split; [split; congruence|].
      intros Ta name d. rewrite handle_message_neighbors.
      destruct (decode_message B C msg) as [| |name' st v e] eqn:E;
        try apply Ta.
      destruct (peers a !! name') as [mac|] eqn:Em; [|apply Ta].
      destruct (decide (name' = name)) as [->|Hne].
      * rewrite lookup_insert_eq. intros Hd. injection Hd as <-.
        rewrite Hc. eapply Hframes; [|exact E|].
        -- rewrite <- Hin. exact Hel.
        -- rewrite <- Hp, Em. eauto.
      * rewrite lookup_insert_ne by exact Hne. apply Ta.
  - intros a b Hd Ha.
    pose proof (handle_disturbance_fixed _ _ Hd) as (_ & _ & Hp & _ & _ & Hc & _).
    destruct Ha as [Ha1 Ha2].
    split; [split; congruence|].
    apply engine_table. eapply handle_disturbance_neighbors. exact Hd.
  - intros a b Hd Ha.
    pose proof (converge_state_fixed _ _ Hd) as (_ & _ & Hp & _ & _ & Hc & _).
    destruct Ha as [Ha1 Ha2].
    split; [split; congruence|].
    apply engine_table. eapply converge_state_neighbors. exact Hd.
  - intros m v Hm. split; [exact Hm | apply engine_table; reflexivity].
  - intros a b Hb Ha. apply broadcast_state_effect in Hb as (out & -> & _).
    split; [exact Ha | apply engine_table; reflexivity].
  - intros m Hm. split; [exact Hm | apply engine_table; reflexivity].
  - intros m [Hp Hc].
    destruct (detect_code_anomaly_frame C m) as (F & _ & Hst).
    apply message_frame_fields in F as (_ & _ & Hp' & Hc' & _).
    split; [split; congruence|]. apply engine_table. rewrite Hst. reflexivity.
  - intros m v Hm. split; [exact Hm | apply engine_table; reflexivity].
  - intros m Hm. split; [exact Hm|].
    intros Ta name d. simpl. intros Hd.
    apply map_lookup_filter_Some_1_1 in Hd. eapply Ta. exact Hd.
Qed.

(** X6.  After a tick, every entry of the neighbor table was in the table
    before the tick or was built from a frame of the queue that
    [process_messages] accepts and whose sender is a registered peer: a
    property of the old entries and of such frames holds of all entries
    the tick leaves. *)
Theorem table_entries_from_frames (n n' : Node) :
  table_all n ->
  (forall msg name st v e,
      msg ∈ inbox n ->
      decode_message B C msg = Accepted name st v e ->
      is_Some (peers n !! name) ->
      Q name {| code := v; nb_status := st; nb_epoch := e;
                last_seen := clock n |}) ->
  epoch_tick B C n = Ok n' ->
  table_all n'.
Proof. apply table_all_tick. Qed.

End TableEntries.

(** X7.  In every state a run reaches, the node's name is the configured
    one, its peers are entries of [PEERS] other than the node itself, and
    the neighbor table holds entries for registered peers only: never one
    under the node's own name. *)
Theorem table_holds_peers_only (allowed : string -> Prop) (n : Node) :
  reachable B C allowed n ->
  node_name n = NODE_NAME C
  /\ peers n ⊆ PEERS C
  /\ peers n !! node_name n = None
  /\ (forall name d, neighbors (state n) !! name = Some d ->
                     is_Some (peers n !! name))
  /\ neighbors (state n) !! node_name n = None.
Proof.
  intros Hn.
  enough (H : node_name n = NODE_NAME C
              /\ peers n ⊆ PEERS C
              /\ peers n !! node_name n = None
              /\ table_all (fun name _ => is_Some (peers n !! name)) n).
  { destruct H as (H1 & H2 & H3 & H4). repeat (split; [assumption|]).
    destruct (neighbors (state n) !! node_name n) as [d|] eqn:E; [|reflexivity].
    apply H4 in E. rewrite H3 in E. destruct E as [? E]. discriminate E. }
  revert n Hn.
  apply (reachable_invariant allowed
           (fun m => node_name m = NODE_NAME C
                     /\ peers m ⊆ PEERS C
                     /\ peers m !! node_name m = None
                     /\ table_all (fun name _ => is_Some (peers m !! name)) m));
    try (intros; assumption).
  - intros now m Hi. unfold init in Hi.
    destruct (q_list C !! 0%nat); [|discriminate]. inv_ok. simpl.
    split; [reflexivity|]. split; [apply map_filter_subseteq|].
    split.
    + apply map_lookup_filter_None. right. intros mac _ [Hne _].
      apply Hne. reflexivity.
    + intros name d Hd. simpl in Hd. rewrite lookup_empty in Hd. discriminate.
  - intros m m' (H1 & H2 & H3 & H4) H.
    pose proof (epoch_tick_parts _ _ H) as (r & _ & Hf & (F1 & _ & F3 & _) & _).
    apply finish_tick_fields in Hf as (G1 & _ & G3 & _).
    assert (Hp : peers m' = peers m) by congruence.
    assert (Hname : node_name m' = node_name m) by congruence.
    rewrite Hp, Hname. repeat (split; [assumption|]).
    intros name d Hd.
    eapply (table_all_tick (fun name _ => is_Some (peers m !! name)) m m');
      [exact H4 | | exact H | exact Hd].
    intros msg name' st v e _ _ Hs. exact Hs.
Qed.



(** ** The sign of the code *)

(** The frames whose code, if they are accepted, is not negative. *)
Definition nonnegative_code (msg : string) : Prop :=
  forall name st v e,
    decode_message B C msg = Accepted name st v e -> (0 <= v)%Q.

(** [**] takes a base that is not negative to a value that is not
    negative. *)
Definition pow_nonnegative : Prop :=
  forall b e : Q, (0 <= b)%Q -> (0 <= py_pow B b e)%Q.

Definition nonnegative_table : Node -> Prop :=
  table_all (fun _ d => (0 <= code d)%Q).

Lemma reciprocal_nonnegative (v : Q) : (0 <= v)%Q -> (0 <= reciprocal v)%Q.
Proof.
  intros Hv. unfold reciprocal. destruct (Qltb 1 v); [|exact Hv].
  unfold Qdiv. rewrite Qmult_1_l. apply Qinv_le_0_compat. exact Hv.
Qed.

Lemma product_over_nonnegative (entries : list (string * NeighborRecord)) :
  Forall (fun kv => (0 <= code kv.2)%Q) entries ->
  (0 <= product_over entries)%Q.
Proof.
  induction 1 as [|kv l Hkv _ IH]; [discriminate|].
  simpl. apply Qmult_le_0_compat; [exact IH|].
  apply reciprocal_nonnegative. exact Hkv.
Qed.

Lemma mean_nonnegative (n : Node) :
  pow_nonnegative -> (0 <= x (state n))%Q -> nonnegative_table n ->
  (0 <= calculate_pseudogeometric_mean B C n)%Q.
Proof.
  intros Hpow Hx Htab. rewrite calculate_pseudogeometric_mean_over.
  unfold mean_over. apply Hpow.
  assert (Hall : Forall (fun kv : string * NeighborRecord => (0 <= code kv.2)%Q)
                   (filter (fun kv => qualifies C n kv.1 kv.2 = true)
                      (map_to_list (neighbors (state n))))).
  { apply Forall_forall. intros [name d] Hel.
    apply list_elem_of_filter in Hel as [_ Hel].
    apply elem_of_map_to_list in Hel. exact (Htab name d Hel). }
  destruct (filter _ _) as [|kv l] eqn:E.
  - apply reciprocal_nonnegative. exact Hx.
  - apply product_over_nonnegative. exact Hall.
Qed.

Lemma handle_disturbance_floor (n n' : Node) :
  handle_disturbance B C n = Ok n' -> (12 # 10 <= x (state n'))%Q.
Proof.
  intros H. apply handle_disturbance_spec in H as (m & _ & _ & ->).
  simpl. apply Q.le_max_r.
Qed.

Lemma converge_state_nonnegative (n n' : Node) :
  pow_nonnegative -> (0 <= x (state n))%Q -> nonnegative_table n ->
  converge_state B C n = Ok n' -> (0 <= x (state n'))%Q.
Proof.
  intros Hpow Hx Htab H.
  apply converge_state_commit in H as (m & Hm & _ & -> & Hxm & _).
  apply converge_update_spec in Hm as (q & Em & _).
  assert (Hmu : (0 <= calculate_pseudogeometric_mean B C m)%Q).
  { apply mean_nonnegative; [exact Hpow | rewrite Hxm; exact Hx |].
    intros name d. rewrite Em. simpl. apply Htab. }
  destruct (converge_commit_spec C (calculate_pseudogeometric_mean B C m) m)
    as (Ht & Hf & _).
  destruct (stability_predicate C _ m).
  - destruct Ht as [_ ->]; [reflexivity|]. rewrite Hxm. exact Hx.
  - destruct Hf as [_ ->]; [reflexivity|]. exact Hmu.
Qed.

Lemma process_loop_inbox (queue : list string) (n : Node) (msg : string) :
  msg ∈ inbox (process_loop B C queue n) -> msg ∈ queue.
Proof.
  revert n. induction queue as [|m rest IH]; intros n; simpl.
  - intros H. inversion H.
  - destruct (String.eqb m EmptyString).
    + simpl. intros H. right. exact H.
    + intros H. right. eapply IH. exact H.
Qed.

Lemma epoch_tick_inbox (n n' : Node) (msg : string) :
  epoch_tick B C n = Ok n' -> msg ∈ inbox n' -> msg ∈ inbox n.
Proof.
  rewrite epoch_tick_steps. intros H. inv_ok.
  apply finish_tick_effect in H as (_ & _ & _ & _ & _ & -> & _).
  unfold consensus_step in Hr. simpl in Hr.
  destruct (status (state n)).
  - apply react_to_topology_inbox in Hr as [-> _].
    apply process_loop_inbox.
  - apply converge_state_frame, engine_frame_fields in Hr as (-> & _).
    auto.
Qed.

Lemma epoch_tick_nonnegative (n n' : Node) :
  pow_nonnegative -> (0 <= x (state n))%Q -> nonnegative_table n ->
  epoch_tick B C n = Ok n' -> (0 <= x (state n'))%Q.
Proof.
  intros Hpow Hx Htab H.
  apply epoch_tick_parts in H as (r & Hr & _ & _ & -> & _).
  unfold consensus_step, react_to_topology in Hr.
  simpl in Hr.
  assert (Hfloor : forall a b, handle_disturbance B C a = Ok b ->
                               (0 <= x (state b))%Q).
  { intros a b Hd. apply handle_disturbance_floor in Hd.
    eapply Qle_trans; [|exact Hd]. discriminate. }
  destruct (status (state n)).
  - inv_ok. destruct r0 as [m changed].
    destruct changed; [eapply Hfloor; exact Hr|]. inv_ok.
    destruct (compare_neighbors_spec _ _ _ _ _ Hr0) as (Hc & Hsame & _).
    symmetry in Hc. apply bool_decide_eq_false in Hc. apply dec_stable in Hc.
    rewrite (Hsame Hc).
    destruct (message_frame_fields _ _
                (process_loop_frame B C (inbox (count_epoch n)) (count_epoch n)))
      as (_ & _ & _ & _ & _ & Hx' & _).
    unfold process_messages. rewrite Hx'. exact Hx.
  - eapply converge_state_nonnegative; [exact Hpow | | | exact Hr].
    + exact Hx.
    + exact Htab.
Qed.

(** X8.  Where [p] is not negative, [**] takes a base that is not
    negative to a value that is not negative, and every frame that arrives
    carries, if it is accepted, a code that is not negative: in every
    state a run reaches, the node's [x] is not negative, and neither is a
    code of the neighbor table.  ([x] is at least 1.2 when
    [handle_disturbance] returns, and the mean, a power of a product of
    reciprocals, when [converge_state] replaces it.) *)
Theorem code_never_negative (n : Node) :
  (0 <= p C)%Q ->
  pow_nonnegative ->
  reachable B C nonnegative_code n ->
  (0 <= x (state n))%Q /\ nonnegative_table n.
Proof.
  intros Hp Hpow Hn.
  enough (H : (0 <= x (state n))%Q /\ nonnegative_table n
              /\ Forall nonnegative_code (inbox n)) by tauto.
  revert n Hn.
  apply (reachable_invariant nonnegative_code
           (fun m => (0 <= x (state m))%Q /\ nonnegative_table m
                     /\ Forall nonnegative_code (inbox m)));
    try (intros; assumption).
  - intros now m Hi. unfold init in Hi.
    destruct (q_list C !! 0%nat); [|discriminate]. inv_ok. simpl.
    split; [exact Hp|]. split; [|constructor].
    intros name d Hd. simpl in Hd. rewrite lookup_empty in Hd. discriminate.
  - intros m msg Hmsg (Hx & Htab & Hin). repeat (split; [assumption|]).
    simpl. apply Forall_app. split; [exact Hin|]. repeat constructor.
    exact Hmsg.
  - intros m m' (Hx & Htab & Hin) H. split; [|split].
    + eapply epoch_tick_nonnegative; eassumption.
    + eapply (table_all_tick (fun _ d => (0 <= code d)%Q) m m');
        [exact Htab | | exact H].
      intros msg name st v e Hel Hd _. simpl.
      rewrite Forall_forall in Hin. exact (Hin msg Hel name st v e Hd).
    + apply Forall_forall. intros msg Hel.
      rewrite Forall_forall in Hin. apply Hin.
      eapply epoch_tick_inbox; eassumption.
Qed.


(** ** Eviction *)

Lemma cleanup_neighbors_lookup (n : Node) (name : string) (d : NeighborRecord) :
  neighbors (state (cleanup_neighbors B C n)) !! name = Some d
  <-> neighbors (state n) !! name = Some d
      /\ ticks_diff B (clock n) (last_seen d) <= 7 * EPOCH_INTERVAL_MS C.
Proof.
  unfold cleanup_neighbors. simpl. rewrite map_lookup_filter_Some. simpl.
  rewrite Z.ltb_ge. reflexivity.
Qed.

Lemma react_to_topology_neighbors (n n' : Node) :
  react_to_topology B C n = Ok n' ->
  neighbors (state n') = neighbors (state n).
Proof.
  unfold react_to_topology, compare_neighbors. intros H.
  destruct (bool_decide (dom (neighbors (state n))
                         ≠ previous_neighbors (state n))).
  - destruct (bool_decide _).
    + destruct (handle_disturbance B C n) as [d|e] eqn:E1; simpl in H;
        [|discriminate].
      apply handle_disturbance_neighbors in H. simpl in H. rewrite H.
      eapply handle_disturbance_neighbors. exact E1.
    + simpl in H. apply handle_disturbance_neighbors in H. exact H.
  - simpl in H. injection H as <-. reflexivity.
Qed.

(** The table a tick works on: the one [process_messages] leaves in a
    tick entered STABLE, the one of the node in a tick entered
    DISTURBED. *)
Definition table_of_tick (n : Node) : gmap string NeighborRecord :=
  match status (state n) with
  | STABLE => neighbors (state (process_messages B C (count_epoch n)))
  | DISTURBED => neighbors (state n)
  end.

(** X9.  [cleanup_neighbors] keeps exactly the entries whose [last_seen]
    is, by [ticks_diff], at most 7 epoch intervals before the clock it
    reads at line 163 (an entry exactly 7 intervals old stays), and
    changes nothing but the table: the identities remembered from the
    last comparison stay, so an evicted peer counts as vanished at the
    next one.  Entries leave the table only there, in a tick that ends on
    an epoch divisible by 10: what a tick leaves is part of the table it
    worked on, and all of it when the tick ends on another epoch. *)
Theorem eviction_keeps_fresh_entries :
  (forall (n : Node) (name : string) (d : NeighborRecord),
      neighbors (state (cleanup_neighbors B C n)) !! name = Some d
      <-> neighbors (state n) !! name = Some d
          /\ ticks_diff B (clock n) (last_seen d) <= 7 * EPOCH_INTERVAL_MS C)
  /\ (forall n : Node,
        cleanup_neighbors B C n
        = with_state
            (set_neighbors (neighbors (state (cleanup_neighbors B C n)))) n)
  /\ (forall n n' : Node,
        epoch_tick B C n = Ok n' ->
        neighbors (state n') ⊆ table_of_tick n
        /\ (epoch (state n') mod 10 <> 0 ->
            neighbors (state n') = table_of_tick n)).
Proof.
  split; [apply cleanup_neighbors_lookup|].
  split; [intros n; destruct n as [? ? ? ? ? []]; reflexivity|].
  intros n n' H.
  assert (Hr : exists r, finish_tick B C r = Ok n'
                         /\ neighbors (state r) = table_of_tick n).
  { unfold table_of_tick. destruct (status (state n)) eqn:Hs.
    - rewrite (epoch_tick_stable B C n Hs) in H. inv_ok. exists r.
      split; [exact H|]. apply react_to_topology_neighbors. exact Hr.
    - rewrite (epoch_tick_disturbed B C n Hs) in H. inv_ok. exists r.
      split; [exact H|]. apply converge_state_neighbors in Hr. exact Hr. }
  destruct Hr as (r & Hf & Hnb).
  apply finish_tick_effect in Hf as (nb & Hst & Hsub & Hall & _).
  rewrite Hst. simpl. rewrite <- Hnb. split; [exact Hsub|].
  intros Hne. apply Hall. exact Hne.
Qed.


(** ** The regional outlier check *)

(** The dict [region_codes] of lines 179-180 and the mean of line 186. *)
Definition region_codes (n : Node) : gmap string Q :=
  code <$> filter (fun kv => REGION_MAP C !! kv.1 = Some (region n))
                  (neighbors (state n)).

Definition region_mean (n : Node) : Q :=
  (map_fold (fun _ c acc => acc + c) 0 (region_codes n)
     / inject_Z (Z.of_nat (size (region_codes n))))%Q.

Lemma region_codes_lookup (n : Node) (name : string) (c : Q) :
  region_codes n !! name = Some c
  <-> exists d,
        neighbors (state n) !! name = Some d
        /\ REGION_MAP C !! name = Some (region n)
        /\ c = code d.
Proof.
  unfold region_codes. rewrite lookup_fmap, fmap_Some.
  split.
  - intros (d & Hd & ->). apply map_lookup_filter_Some in Hd as [Hd Hr].
    eauto.
  - intros (d & Hd & Hr & ->). exists d. split; [|reflexivity].
    apply map_lookup_filter_Some. auto.
Qed.

Lemma detect_code_anomaly_unfold (n : Node) :
  detect_code_anomaly C n
  = if (length (code_sequence n) <? 5)%nat then n
    else if (size (region_codes n) <? 2)%nat then n
    else if Qltb (1 # 2) (Qabs (x (state n) - region_mean n)) then
      match (most_deviating (region_codes n) (region_mean n)).2 with
      | Some suspected_node =>
          if negb (String.eqb suspected_node EmptyString)
             && negb (suspicion_triggered n)
          then trigger_alert
                 (emit (OutCloneRegion suspected_node) (emit OutAnomaly n))
          else emit OutAnomaly n
      | None => emit OutAnomaly n
      end
    else n.
Proof. reflexivity. Qed.

(** What the loop of lines 192-198 returns: the largest deviation from
    the mean, with a name that has it if it is not zero. *)
Lemma most_deviating_spec (codes : gmap string Q) (mean : Q) :
  let r := most_deviating codes mean in
  (forall name c, codes !! name = Some c -> (Qabs (c - mean) <= r.1)%Q)
  /\ match r.2 with
     | Some name =>
         exists c, codes !! name = Some c
                   /\ r.1 = Qabs (c - mean) /\ (0 < r.1)%Q
     | None => r.1 = 0%Q
     end.
Proof.
  unfold most_deviating.
  apply (map_fold_weak_ind
           (fun (r : Q * option string) (m : gmap string Q) =>
              (forall name c, m !! name = Some c -> (Qabs (c - mean) <= r.1)%Q)
              /\ match r.2 with
                 | Some name =>
                     exists c, m !! name = Some c
                               /\ r.1 = Qabs (c - mean) /\ (0 < r.1)%Q
                 | None => r.1 = 0%Q
                 end)).
  - split; [|reflexivity]. intros name c H. rewrite lookup_empty in H.
    discriminate.
  - intros i c m [d s] Hi [Hmax Hs]. cbn [fst snd] in Hmax, Hs.
    cbv zeta. cbn [fst snd].
    destruct (Qltb d (Qabs (c - mean))) eqn:E; cbn [fst snd].
    + apply Qltb_lt in E. split.
      * intros name c' H. destruct (decide (i = name)) as [->|Hne].
        -- rewrite lookup_insert_eq in H. injection H as <-. apply Qle_refl.
        -- rewrite lookup_insert_ne in H by exact Hne.
           eapply Qle_trans; [apply (Hmax name); exact H|].
           apply Qlt_le_weak, E.
      * exists c. rewrite lookup_insert_eq.
        split; [reflexivity|]. split; [reflexivity|].
        eapply Qle_lt_trans; [|exact E].
        destruct s as [name|]; [|rewrite Hs; apply Qle_refl].
        destruct Hs as (c' & _ & _ & Hpos). apply Qlt_le_weak, Hpos.
    + apply Qltb_ge in E. split.
      * intros name c' H. destruct (decide (i = name)) as [->|Hne].
        -- rewrite lookup_insert_eq in H. injection H as <-. exact E.
        -- rewrite lookup_insert_ne in H by exact Hne.
           apply (Hmax name). exact H.
      * destruct s as [name|]; [|exact Hs].
        destruct Hs as (c' & Hc' & Hd & Hpos). exists c'.
        split; [|auto]. rewrite lookup_insert_ne; [exact Hc'|].
        intros ->. rewrite Hi in Hc'. discriminate.
Qed.

(** X10.  The regional check changes nothing when fewer than 5 codes are
    in the history or fewer than 2 neighbors of the table are of the
    node's region.  When it sets the alert flag, both tests passed, the
    neighbor it names is an entry of the table whose region is the node's
    own, and the anomaly, the name and the alert come out in this order.
    Once the flag is set the check names nobody and gives no alert: at
    most the anomaly is reported.  The check never changes [self.state]
    or the clone log. *)
Theorem regional_outlier (n : Node) :
  let n' := detect_code_anomaly C n in
  ((length (code_sequence n) < 5)%nat \/ (size (region_codes n) < 2)%nat ->
   n' = n)
  /\ (suspicion_triggered n = false ->
      suspicion_triggered n' = true ->
      (5 <= length (code_sequence n))%nat
      /\ (2 <= size (region_codes n))%nat
      /\ exists name d,
           name <> EmptyString
           /\ neighbors (state n) !! name = Some d
           /\ REGION_MAP C !! name = Some (region n)
           /\ console n'
              = console n ++ [OutAnomaly; OutCloneRegion name; OutBlink])
  /\ (suspicion_triggered n = true ->
      suspicion_triggered n' = true
      /\ (console n' = console n \/ console n' = console n ++ [OutAnomaly]))
  /\ state n' = state n
  /\ clone_check_log n' = clone_check_log n.
Proof.
  intros n'.
  destruct (detect_code_anomaly_frame C n) as (_ & Hlog & Hst).
  split; [|split; [|split; [|split; [exact Hst | exact Hlog]]]];
    subst n'; rewrite detect_code_anomaly_unfold.
  - intros Hor.
    destruct (Nat.ltb_spec (length (code_sequence n)) 5) as [|H5];
      [reflexivity|].
    destruct (Nat.ltb_spec (size (region_codes n)) 2) as [|H2];
      [reflexivity|].
    destruct Hor as [H|H]; lia.
  - intros Hs.
    destruct (Nat.ltb_spec (length (code_sequence n)) 5) as [|H5];
      [congruence|].
    destruct (Nat.ltb_spec (size (region_codes n)) 2) as [|H2];
      [congruence|].
    destruct (Qltb (1 # 2) _); [|congruence].
    destruct (most_deviating_spec (region_codes n) (region_mean n))
      as [_ Hname].
    destruct (most_deviating _ _).2 as [name|] eqn:Em;
      [|simpl; congruence].
    destruct (String.eqb_spec name EmptyString) as [->|Hne];
      [simpl; congruence|].
    rewrite Hs. simpl negb. simpl andb. cbv iota. intros _.
    repeat (split; [assumption|]).
    destruct Hname as (c & Hc & _).
    apply region_codes_lookup in Hc as (d & Hnb & Hreg & _).
    exists name, d. repeat (split; [assumption|]).
    destruct (trigger_alert_effect
                (emit (OutCloneRegion name) (emit OutAnomaly n)))
      as (-> & _). simpl. rewrite Hs, <- !app_assoc. reflexivity.
  - intros Hs.
    destruct (length (code_sequence n) <? 5)%nat; [auto|].
    destruct (size (region_codes n) <? 2)%nat; [auto|].
    destruct (Qltb (1 # 2) _); [|auto].
    destruct (most_deviating _ _).2 as [name|]; [|simpl; auto].
    rewrite Hs, andb_false_r. simpl. auto.
Qed.


(** ** The wire format *)

(** How the f-string of lines 152-154 renders numbers: [{:.6f}] for [x],
    [str] for [p], [q] and the two integers. *)
Record Format := {
  format_6f : Q -> string;
  format_float : Q -> string;
  format_int : Z -> string
}.

Definition status_name (s : Status) : string :=
  match s with
  | STABLE => "STABLE"
  | DISTURBED => "DISTURBED"
  end.

(** [parts] joined by colons. *)
Fixpoint join_colon (parts : list string) : string :=
  match parts with
  | [] => EmptyString
  | [part] => part
  | part :: rest => String.append part (String colon (join_colon rest))
  end.

(** The eight fields of a frame, in the order of lines 152-154. *)
Definition fields (F : Format) (w : Wire) : list string :=
  [w_network w; w_name w; status_name (w_status w); format_6f F (w_x w);
   format_float F (w_p w); format_float F (w_q w);
   format_int F (w_epoch w); format_int F (w_counter w)].

(** The text [broadcast_state] sends. *)
Definition encode (F : Format) (w : Wire) : string := join_colon (fields F w).

Fixpoint no_colon (s : string) : bool :=
  match s with
  | EmptyString => true
  | String c rest => negb (Ascii.eqb c colon) && no_colon rest
  end.

Lemma split_no_colon (s : string) : no_colon s = true -> split colon s = [s].
Proof.
  induction s as [|c s IH]; [reflexivity|].
  simpl. intros H. apply andb_true_iff in H as [Hc Hs].
  apply negb_true_iff in Hc. rewrite Hc, (IH Hs). reflexivity.
Qed.

Lemma split_append (s rest : string) :
  no_colon s = true ->
  split colon (String.append s (String colon rest)) = s :: split colon rest.
Proof.
  induction s as [|c s IH]; simpl.
  - intros _. rewrite ?Ascii.eqb_refl. reflexivity.
  - intros H. apply andb_true_iff in H as [Hc Hs].
    apply negb_true_iff in Hc. rewrite Hc, (IH Hs). reflexivity.
Qed.

Lemma split_join (parts : list string) :
  parts <> [] ->
  Forall (fun part => no_colon part = true) parts ->
  split colon (join_colon parts) = parts.
Proof.
  intros Hne Hall. induction Hall as [|part rest Hp Hrest IH];
    [contradiction|].
  destruct rest as [|part' rest'].
  - simpl. apply split_no_colon. exact Hp.
  - change (join_colon (part :: part' :: rest'))
      with (String.append part (String colon (join_colon (part' :: rest')))).
    rewrite split_append by exact Hp. f_equal. apply IH. discriminate.
Qed.

(** X11.  A frame written by [broadcast_state] and read by
    [process_messages]: if none of its eight fields holds a colon and the
    text survives [encode]/[decode], a node of the same network accepts it
    with the sender's name, its status, and the values [float] and [int]
    read back from the formatted [x] and epoch; the fields of [p], [q]
    and the message counter are not read. *)
Theorem frame_round_trip (F : Format) (w : Wire) (v : Q) (e : Z) (n : Node) :
  Forall (fun part => no_colon part = true) (fields F w) ->
  bytes_decode B (encode F w) = Some (encode F w) ->
  w_network w = NETWORK_ID C ->
  py_float B (format_6f F (w_x w)) = Some v ->
  py_int B (format_int F (w_epoch w)) = Some e ->
  split colon (encode F w) = fields F w
  /\ decode_message B C (encode F w)
     = Accepted (w_name w) (status_name (w_status w)) v e
  /\ (is_Some (peers n !! w_name w) ->
      neighbors (state (handle_message B C (encode F w) n)) !! w_name w
      = Some {| code := v; nb_status := status_name (w_status w);
                nb_epoch := e; last_seen := clock n |}).
Proof.
  intros Hall Hdec Hnet Hv He.
  assert (Hsplit : split colon (encode F w) = fields F w)
    by (apply split_join; [discriminate | exact Hall]).
  assert (Hacc : decode_message B C (encode F w)
                 = Accepted (w_name w) (status_name (w_status w)) v e).
  { unfold decode_message. rewrite Hdec, Hsplit. unfold fields.
    rewrite Hnet, String.eqb_refl, Hv, He. reflexivity. }
  split; [exact Hsplit|]. split; [exact Hacc|].
  intros [mac Hmac]. rewrite handle_message_neighbors, Hacc, Hmac.
  apply lookup_insert_eq.
Qed.


(** ** Which frame the table keeps *)

(** The status, code and epoch of the last frame of [queue] that is
    accepted under the name [name], after [acc]. *)
Definition latest_from (name : string) (queue : list string)
    (acc : option (string * Q * Z)) : option (string * Q * Z) :=
  foldl (fun acc msg =>
           match decode_message B C msg with
           | Accepted sender st v e =>
               if String.eqb sender name then Some (st, v, e) else acc
           | _ => acc
           end) acc queue.

(** The table entry made from such a frame by a node whose clock reads
    [now], or [old] if there is none. *)
Definition entry_of (now : Z) (acc : option (string * Q * Z))
    (old : option NeighborRecord) : option NeighborRecord :=
  match acc with
  | Some (st, v, e) =>
      Some {| code := v; nb_status := st; nb_epoch := e; last_seen := now |}
  | None => old
  end.

Lemma foldl_latest (n : Node) (name : string) (old : option NeighborRecord)
    (queue : list string) :
  is_Some (peers n !! name) ->
  forall (m : Node) (acc : option (string * Q * Z)),
    peers m = peers n -> clock m = clock n ->
    neighbors (state m) !! name = entry_of (clock n) acc old ->
    neighbors (state (foldl (fun a msg => handle_message B C msg a) m queue))
      !! name
    = entry_of (clock n) (latest_from name queue acc) old.
Proof.
  intros [mac Hmac].
  induction queue as [|msg rest IH]; intros m acc Hp Hc Hm; [exact Hm|].
  destruct (message_frame_fields _ _ (handle_message_frame B C msg m))
    as (_ & _ & Hp' & Hc' & _).
  unfold latest_from. simpl. apply IH; [congruence | congruence |].
  rewrite handle_message_neighbors.
  destruct (decode_message B C msg) as [| |sender st v e]; try exact Hm.
  destruct (String.eqb_spec sender name) as [->|Hne].
  - rewrite Hp, Hmac, Hc. apply lookup_insert_eq.
  - destruct (peers m !! sender); [|exact Hm].
    rewrite lookup_insert_ne by exact Hne. exact Hm.
Qed.

(** X12.  After [process_messages] (no frame of the queue being the empty
    one), the table entry of a registered peer is the one built from the
    last frame of the queue accepted under its name, whatever epochs the
    frames claim, and the old entry if there is no such frame. *)
Theorem latest_frame_wins (n : Node) (name : string) :
  (forall msg, msg ∈ inbox n -> msg <> EmptyString) ->
  is_Some (peers n !! name) ->
  neighbors (state (process_messages B C n)) !! name
  = entry_of (clock n) (latest_from name (inbox n) None)
      (neighbors (state n) !! name).
Proof.
  intros Hne Hpeer. rewrite process_messages_foldl by exact Hne. simpl.
  apply foldl_latest; [exact Hpeer | reflexivity | reflexivity | reflexivity].
Qed.

(** ** Which code the clone log keeps *)

(** The code of the first frame of [queue] accepted with the key [key],
    unless [acc] already holds one. *)
Definition first_for (key : string * Z) (queue : list string)
    (acc : option Q) : option Q :=
  foldl (fun acc msg =>
           match acc with
           | Some seen => Some seen
           | None =>
               match decode_message B C msg with
               | Accepted name st v e =>
                   if bool_decide ((name, e) = key) then Some v else None
               | _ => None
               end
           end) acc queue.

Lemma handle_message_log (msg : string) (n : Node) (key : string * Z) :
  clone_check_log (handle_message B C msg n) !! key
  = match clone_check_log n !! key with
    | Some seen => Some seen
    | None =>
        match decode_message B C msg with
        | Accepted name st v e =>
            if bool_decide ((name, e) = key) then Some v else None
        | _ => None
        end
    end.
Proof.
  unfold handle_message.
  destruct (decode_message B C msg) as [| |name st v e];
    try (simpl; destruct (clone_check_log n !! key); reflexivity).
  destruct (store_neighbor_effect name st v e (clone_check name v e n))
    as (_ & _ & -> & _).
  unfold clone_check.
  destruct (clone_check_log n !! (name, e)) as [seen|] eqn:E.
  - assert (Hlog : clone_check_log
                     (if Qltb (1 # 100) (Qabs (seen - v))
                      then trigger_alert (emit (OutCloneConflict name e) n)
                      else n) = clone_check_log n).
    { destruct (Qltb _ _); [|reflexivity].
      destruct (trigger_alert_effect (emit (OutCloneConflict name e) n))
        as (_ & _ & -> & _). reflexivity. }
    rewrite Hlog. destruct (clone_check_log n !! key) eqn:Ek; [reflexivity|].
    rewrite bool_decide_eq_false_2; [reflexivity|].
    intros <-. congruence.
  - simpl. destruct (bool_decide_reflect ((name, e) = key)) as [<-|Hne].
    + rewrite E. apply lookup_insert_eq.
    + rewrite lookup_insert_ne by exact Hne.
      destruct (clone_check_log n !! key); reflexivity.
Qed.

(** X13.  After [process_messages] (no frame of the queue being the empty
    one), the clone log holds for every key the code it held before, or
    else the code of the first frame of the queue accepted with that key:
    later frames with the key never replace it. *)
Theorem first_seen_wins (n : Node) (key : string * Z) :
  (forall msg, msg ∈ inbox n -> msg <> EmptyString) ->
  clone_check_log (process_messages B C n) !! key
  = first_for key (inbox n) (clone_check_log n !! key).
Proof.
  intros Hne. rewrite process_messages_foldl by exact Hne. simpl.
  clear Hne. unfold first_for. generalize (inbox n). intros queue. revert n.
  induction queue as [|msg rest IH]; intros n; [reflexivity|].
  simpl. rewrite IH, handle_message_log. reflexivity.
Qed.


(** ** The status and the count of converged epochs *)

(** DISTURBED goes with a count below the required one, STABLE with the
    count 0 of a node never disturbed or with exactly the required one. *)
Definition status_matches_count (n : Node) : Prop :=
  match status (state n) with
  | DISTURBED =>
      0 <= convergence_count (state n) < STABLE_EPOCHS_REQUIRED C
  | STABLE =>
      convergence_count (state n) = 0
      \/ convergence_count (state n) = STABLE_EPOCHS_REQUIRED C
  end.

Lemma handle_disturbance_status (n n' : Node) :
  handle_disturbance B C n = Ok n' ->
  status (state n') = DISTURBED /\ convergence_count (state n') = 0.
Proof.
  intros H. apply handle_disturbance_spec in H as (m & Hm & _ & ->).
  apply disturbance_update_spec in Hm as (q & -> & _). auto.
Qed.

Lemma consensus_step_status (n r : Node) :
  1 <= STABLE_EPOCHS_REQUIRED C ->
  status_matches_count n ->
  consensus_step n = Ok r ->
  status_matches_count r.
Proof.
  intros Hreq Hn. unfold consensus_step, status_matches_count in *.
  destruct (status (state n)) eqn:Hs.
  - unfold react_to_topology. intros H. inv_ok.
    destruct r0 as [m changed].
    assert (Hdis : forall a b, handle_disturbance B C a = Ok b ->
               match status (state b) with
               | DISTURBED =>
                   0 <= convergence_count (state b) < STABLE_EPOCHS_REQUIRED C
               | STABLE =>
                   convergence_count (state b) = 0
                   \/ convergence_count (state b) = STABLE_EPOCHS_REQUIRED C
               end).
    { intros a b Hd. apply handle_disturbance_status in Hd as [-> ->]. lia. }
    destruct changed; [eapply Hdis; exact H|]. inv_ok.
    destruct (compare_neighbors_spec _ _ _ _ _ Hr) as (Hc & Hsame & _).
    symmetry in Hc. apply bool_decide_eq_false in Hc. apply dec_stable in Hc.
    rewrite (Hsame Hc).
    destruct (message_frame_fields _ _ (process_loop_frame B C (inbox n) n))
      as (_ & _ & _ & _ & _ & _ & Hst & _ & _ & Hcc & _).
    unfold process_messages. simpl in Hst, Hcc. rewrite Hst, Hcc, Hs. exact Hn.
  - intros H. apply converge_state_commit in H as (m & _ & _ & -> & _ & Hc & Hst).
    destruct (converge_commit_spec C (calculate_pseudogeometric_mean B C m) m)
      as (Ht & Hf & Hstat).
    rewrite Hstat, Hst, Hs.
    destruct (stability_predicate C _ m).
    + destruct Ht as [-> _]; [reflexivity|]. rewrite Hc.
      destruct (Z.leb_spec (STABLE_EPOCHS_REQUIRED C)
                  (convergence_count (state n) + 1)); lia.
    + destruct Hf as [-> _]; [reflexivity|].
      destruct (Z.leb_spec (STABLE_EPOCHS_REQUIRED C) 0); lia.
Qed.

(** X14.  Where at least one stable epoch is required: in every state a
    run reaches, a DISTURBED node has counted fewer converged epochs than
    required, and a STABLE node has counted none (it was never disturbed)
    or exactly the required number; so a disturbed node turns STABLE at
    the tick that brings its count to [STABLE_EPOCHS_REQUIRED], no sooner
    and no later. *)
Theorem status_follows_count (allowed : string -> Prop) (n : Node) :
  1 <= STABLE_EPOCHS_REQUIRED C ->
  reachable B C allowed n ->
  status_matches_count n.
Proof.
  intros Hreq. revert n.
  apply (reachable_invariant allowed status_matches_count);
    try (intros; assumption).
  - intros now m Hi. unfold init in Hi.
    destruct (q_list C !! 0%nat); [|discriminate]. inv_ok.
    unfold status_matches_count. simpl. auto.
  - intros m m' Hm H. apply epoch_tick_parts in H as (r & Hr & Hf & _).
    apply consensus_step_status in Hr; [|exact Hreq|exact Hm].
    apply finish_tick_effect in Hf as (nb & Hst & _).
    unfold status_matches_count in *. rewrite Hst. exact Hr.
Qed.

(** ** Names the region map does not know *)

Lemma filter_none {A} (P : A -> Prop) `{forall a, Decision (P a)}
    (l : list A) :
  (forall a, a ∈ l -> ~ P a) -> filter P l = [].
Proof.
  induction l as [|a l IH]; intros Hall; [reflexivity|].
  rewrite filter_cons_False by (apply Hall; left).
  apply IH. intros b Hb. apply Hall. right. exact Hb.
Qed.

(** X15.  A node whose name the region map does not hold has the region
    UNKNOWN.  Entries of the neighbor table under names the map gives
    another region, or no region at all, are left out of the mean and of
    the regional check: if no entry is of the node's region, the mean is
    [reciprocal(x) ** a_i] and the regional check changes nothing. *)
Theorem foreign_neighbors_ignored :
  (forall (allowed : string -> Prop) (n : Node),
      reachable B C allowed n ->
      region n = default "UNKNOWN"%string (REGION_MAP C !! NODE_NAME C))
  /\ (forall (n : Node) (name : string) (d : NeighborRecord),
        REGION_MAP C !! name <> Some (region n) ->
        qualifies C n name d = false)
  /\ (forall n : Node,
        (forall name d, neighbors (state n) !! name = Some d ->
                        REGION_MAP C !! name <> Some (region n)) ->
        calculate_pseudogeometric_mean B C n
        = py_pow B (reciprocal (x (state n))) (a_i (state n))
        /\ detect_code_anomaly C n = n).
Proof.
  split; [|split].
  - intros allowed.
    apply (reachable_invariant allowed
             (fun m => region m
                       = default "UNKNOWN"%string
                           (REGION_MAP C !! NODE_NAME C)));
      try (intros; assumption).
    + intros now m Hi. unfold init in Hi.
      destruct (q_list C !! 0%nat); [|discriminate]. inv_ok. reflexivity.
    + intros m m' Hm H.
      apply epoch_tick_parts in H as (r & _ & Hf & (_ & Hr & _) & _).
      apply finish_tick_fields in Hf as (_ & Hr' & _). congruence.
  - intros n name d Hreg. unfold qualifies.
    rewrite bool_decide_eq_false_2 by exact Hreg. reflexivity.
  - intros n Hall. split.
    + rewrite calculate_pseudogeometric_mean_over. unfold mean_over.
      rewrite filter_none; [reflexivity|].
      intros [name d] Hel Hq. apply elem_of_map_to_list in Hel.
      apply qualifies_spec in Hq as [Hreg _]. exact (Hall name d Hel Hreg).
    + rewrite detect_code_anomaly_unfold.
      assert (E : region_codes n = ∅).
      { apply map_eq. intros name. rewrite lookup_empty.
        destruct (region_codes n !! name) as [c|] eqn:Ec; [|reflexivity].
        apply region_codes_lookup in Ec as (d & Hd & Hreg & _).
        exfalso. exact (Hall name d Hd Hreg). }
      rewrite E, map_size_empty. simpl.
      destruct (_ <? _)%nat; reflexivity.
Qed.


End Coverage.



Lemma demo3_roots_defined : roots_defined Demo.builtins Demo.config3.
Proof.
  unfold roots_defined. simpl.
  repeat (constructor; [split; [discriminate | vm_compute; discriminate]|]).
  constructor.
Qed.

Lemma next_q_cycles_witness :
  rotate Demo.builtins Demo.config3 3 Demo.started = Ok Demo.started
  /\ rotate Demo.builtins Demo.config3 2 Demo.started
     = Ok (set_current_q_index 2 Demo.started).
Proof.
  destruct (next_q_cycles Demo.builtins Demo.config3 Demo.started 1
              demo3_roots_defined) as [H2 H3]; [discriminate|].
  split.
  - apply H3. vm_compute. lia.
  - rewrite H2. vm_compute. reflexivity.
Defined.

(** ** More of the demo instance *)

Module Sample.

Fixpoint zeros (k : nat) : string :=
  match k with
  | O => EmptyString
  | S k => String (Ascii.ascii_of_nat 48) (zeros k)
  end.

(** A non-negative rational with six decimals, rounded half up. *)
Definition fixed6 (q : Q) : string :=
  let k := Qfloor (q * 1000000 + (1 # 2)) in
  let frac := pretty (k mod 1000000) in
  String.append (pretty (k / 1000000))
    (String Demo.dot
       (String.append (zeros (6 - String.length frac)) frac)).

Definition format : Format :=
  {| format_6f := fixed6;
     format_float := fixed6;
     format_int := pretty |}.

(** What [B] broadcasts at epoch 7 with [x = 1.234567]. *)
Definition wire : Wire :=
  {| w_network := "GTI"; w_name := "B"; w_status := DISTURBED;
     w_x := 1234567 # 1000000; w_p := 1 # 2; w_q := 1; w_epoch := 7;
     w_counter := 3 |}.



(** A node with [x = 2] and five codes in its history, whose neighbors
    [B] and [C] report 1.0 and 1.1. *)
Definition outlier : Node :=
  set_code_sequence [2; 2; 2; 2; 2]%Q
    (with_state (fun s =>
       set_x 2 (set_neighbors {[ "B" := Demo.neighbor 1 5 ;
                                 "C" := Demo.neighbor (11 # 10) 5 ]} s))
       Demo.started).

Definition named_B (name : string) (d : NeighborRecord) : Prop :=
  name = "B"%string.

End Sample.

Lemma demo_pow_nonnegative : pow_nonnegative Demo.builtins.
Proof. intros b e Hb. simpl. unfold Demo.pow_integral. apply Qpower_0_le, Hb. Qed.

Lemma demo_nonnegative_frames :
  Forall (nonnegative_code Demo.builtins Demo.config)
    (frames_of Demo.to_disturbed).
Proof.
  unfold frames_of. simpl.
  repeat (constructor;
          [intros name st v e Hd; vm_compute in Hd; injection Hd as <- <- <- <-;
           discriminate|]).
  constructor.
Qed.

Lemma one_broadcast_per_tick_witness :
  epoch_tick Demo.builtins Demo.config Demo.listening = Ok Demo.listened
  /\ message_counter (state Demo.listened)
     = message_counter (state Demo.listening) + 1
  /\ size (peers Demo.listening) = 6%nat.
Proof.
  assert (H : epoch_tick Demo.builtins Demo.config Demo.listening
              = Ok Demo.listened) by (vm_compute; reflexivity).
  split; [exact H|].
  split; [|vm_compute; reflexivity].
  exact (proj1 (one_broadcast_per_tick Demo.builtins Demo.config _ _ H)).
Defined.

Lemma led_shows_status_witness :
  epoch_tick Demo.builtins Demo.config Demo.settled = Ok Demo.settled1
  /\ status (state Demo.settled1) = STABLE
  /\ led Demo.settled1 = true.
Proof.
  assert (H : epoch_tick Demo.builtins Demo.config Demo.settled
              = Ok Demo.settled1) by (vm_compute; reflexivity).
  assert (S : status (state Demo.settled1) = STABLE)
    by (vm_compute; reflexivity).
  split; [exact H|]. split; [exact S|].
  exact (proj2 (led_shows_status Demo.builtins Demo.config _ _ H) S).
Defined.




Lemma table_entries_from_frames_witness :
  epoch_tick Demo.builtins Demo.config Demo.listening = Ok Demo.listened
  /\ table_all Sample.named_B Demo.listened
  /\ is_Some (neighbors (state Demo.listened) !! "B").
Proof.
  assert (H : epoch_tick Demo.builtins Demo.config Demo.listening
              = Ok Demo.listened) by (vm_compute; reflexivity).
  split; [exact H|]. split; [|vm_compute; eauto].
  apply (table_entries_from_frames Demo.builtins Demo.config Sample.named_B
           Demo.listening Demo.listened); [| |exact H].
  - intros name d Hd. vm_compute in Hd. discriminate Hd.
  - intros msg name st v e Hel Hd _. unfold Sample.named_B.
    vm_compute in Hel.
    apply elem_of_cons in Hel as [-> | Hel];
      [vm_compute in Hd; injection Hd as <- _ _ _; reflexivity|].
    apply elem_of_cons in Hel as [-> | Hel];
      [vm_compute in Hd; injection Hd as <- _ _ _; reflexivity|].
    inversion Hel.
Defined.

Lemma table_holds_peers_only_witness :
  node_name Demo.disturbed = "A"%string
  /\ peers Demo.disturbed !! "A" = None
  /\ neighbors (state Demo.disturbed) !! "A" = None.
Proof.
  destruct (table_holds_peers_only Demo.builtins Demo.config (fun _ => True)
              Demo.disturbed disturbed_reachable) as (H1 & _ & H3 & _ & H5).
  rewrite H1 in H3, H5. auto.
Defined.

Lemma code_never_negative_witness :
  (0 <= p Demo.config)%Q
  /\ (0 <= x (state Demo.disturbed))%Q
  /\ nonnegative_table Demo.disturbed
  /\ size (neighbors (state Demo.disturbed)) = 1%nat.
Proof.
  assert (Hp : (0 <= p Demo.config)%Q) by discriminate.
  assert (R : reachable Demo.builtins Demo.config
                (nonnegative_code Demo.builtins Demo.config) Demo.disturbed).
  { apply (play_reachable Demo.builtins Demo.config _ Demo.to_disturbed
             Demo.started).
    - apply started_reachable.
    - exact demo_nonnegative_frames.
    - vm_compute. reflexivity. }
  destruct (code_never_negative Demo.builtins Demo.config Demo.disturbed Hp
              demo_pow_nonnegative R) as [Hx Ht].
  split; [exact Hp|]. split; [exact Hx|]. split; [exact Ht|].
  vm_compute. reflexivity.
Defined.

Lemma eviction_keeps_fresh_entries_witness :
  epoch_tick Demo.builtins Demo.config Demo.settled = Ok Demo.settled1
  /\ epoch (state Demo.settled1) = 19
  /\ neighbors (state Demo.settled1)
     = table_of_tick Demo.builtins Demo.config Demo.settled
  /\ is_Some (neighbors (state Demo.settled1) !! "C").
Proof.
  assert (H : epoch_tick Demo.builtins Demo.config Demo.settled
              = Ok Demo.settled1) by (vm_compute; reflexivity).
  assert (E : epoch (state Demo.settled1) = 19) by (vm_compute; reflexivity).
  split; [exact H|]. split; [exact E|]. split.
  - destruct (eviction_keeps_fresh_entries Demo.builtins Demo.config)
      as (_ & _ & Htick).
    apply (Htick Demo.settled Demo.settled1 H).
    rewrite E. discriminate.
  - vm_compute. eauto.
Defined.

Lemma regional_outlier_witness :
  suspicion_triggered Sample.outlier = false
  /\ suspicion_triggered (detect_code_anomaly Demo.config Sample.outlier) = true
  /\ exists name d,
       neighbors (state Sample.outlier) !! name = Some d
       /\ console (detect_code_anomaly Demo.config Sample.outlier)
          = [OutAnomaly; OutCloneRegion name; OutBlink].
Proof.
  assert (H0 : suspicion_triggered Sample.outlier = false)
    by (vm_compute; reflexivity).
  assert (H1 : suspicion_triggered
                 (detect_code_anomaly Demo.config Sample.outlier) = true)
    by (vm_compute; reflexivity).
  split; [exact H0|]. split; [exact H1|].
  destruct (proj1 (proj2 (regional_outlier Demo.config Sample.outlier)) H0 H1)
    as (_ & _ & name & d & _ & Hd & _ & Hc).
  exists name, d. split; [exact Hd|]. exact Hc.
Defined.

Lemma frame_round_trip_witness :
  Sample.fixed6 (1234567 # 1000000) = "1.234567"%string
  /\ decode_message Demo.builtins Demo.config
       (encode Sample.format Sample.wire)
     = Accepted "B" "DISTURBED" (1234567 # 1000000) 7.
Proof.
  split; [vm_compute; reflexivity|].
  refine (proj1 (proj2 (frame_round_trip Demo.builtins Demo.config
                          Sample.format Sample.wire (1234567 # 1000000) 7
                          Demo.started _ _ _ _ _))).
  - unfold fields. repeat (constructor; [vm_compute; reflexivity|]).
    constructor.
  - reflexivity.
  - reflexivity.
  - vm_compute. reflexivity.
  - vm_compute. reflexivity.
Defined.

Lemma latest_frame_wins_witness :
  neighbors (state (process_messages Demo.builtins Demo.config Demo.listening))
    !! "B"
  = Some {| code := 21 # 20; nb_status := "STABLE"; nb_epoch := 5;
            last_seen := 0 |}.
Proof.
  rewrite (latest_frame_wins Demo.builtins Demo.config Demo.listening "B").
  - vm_compute. reflexivity.
  - intros msg Hel. vm_compute in Hel.
    apply elem_of_cons in Hel as [-> | Hel]; [discriminate|].
    apply elem_of_cons in Hel as [-> | Hel]; [discriminate|].
    inversion Hel.
  - vm_compute. eauto.
Defined.

Lemma first_seen_wins_witness :
  clone_check_log (process_messages Demo.builtins Demo.config Demo.listening)
    !! ("B"%string, 5)
  = Some 1%Q.
Proof.
  rewrite (first_seen_wins Demo.builtins Demo.config Demo.listening).
  - vm_compute. reflexivity.
  - intros msg Hel. vm_compute in Hel.
    apply elem_of_cons in Hel as [-> | Hel]; [discriminate|].
    apply elem_of_cons in Hel as [-> | Hel]; [discriminate|].
    inversion Hel.
Defined.

Lemma status_follows_count_witness :
  status (state Demo.calm) = STABLE
  /\ convergence_count (state Demo.calm) = STABLE_EPOCHS_REQUIRED Demo.config
  /\ status_matches_count Demo.config Demo.calm.
Proof.
  split; [vm_compute; reflexivity|]. split; [vm_compute; reflexivity|].
  apply (status_follows_count Demo.builtins Demo.config (fun _ => True));
    [vm_compute; discriminate | exact calm_reachable].
Defined.
